(** * RagAndWebSearchAgent: the agent orchestration graph and the knowledge search

  A shallow embedding of
  - [state-graph.service.ts]: the conversation state and its reducers,
    [runAgentNode], the Tavily node's message filter, [router], the edge
    table and [StateGraphService.run];
  - [state-graph.controller.ts]: [StateGraphController.run];
  - [knowledge.service.ts]: [KnowledgeService.search];
  followed by the properties of the orchestration engine.

  Message contents, names and fixed texts are Rocq strings; the strings
  whose characters the code counts or classifies (a search query, the text
  of a document) are sequences of UTF-16 code units, as in JavaScript. *)

From Stdlib Require Import String Ascii List ZArith Bool Arith Lia.
From Stdlib Require Import Decimal DecimalString.
From stdpp Require Import base option gmap.
Import ListNotations.
Local Open Scope string_scope.
Local Open Scope list_scope.

(** ** JavaScript helpers used by the sources *)
Module Js.

(** Exceptions a call can raise. *)
Inductive Exn : Type :=
| TypeError                (* property read on [undefined] *)
| BadRequestException      (* thrown by KnowledgeService.search *)
| NodeFailure              (* a model or tool invocation rejected *)
| UnknownDestination       (* a route label with no entry in the path map *)
| RecursionLimitExceeded.  (* step budget exhausted *)

(** A computation that returns or throws. *)
Inductive Res (A : Type) : Type :=
| Ok (a : A)
| Throw (e : Exn).
Arguments Ok {A} a.
Arguments Throw {A} e.

Definition bind {A B} (r : Res A) (k : A -> Res B) : Res B :=
  match r with
  | Ok a => k a
  | Throw e => Throw e
  end.

(** [hay.includes(needle)] on strings. *)
Fixpoint includes (hay needle : string) : bool :=
  if String.prefix needle hay then true
  else match hay with
       | EmptyString => false
       | String _ rest => includes rest needle
       end.

(** [arr.includes(v)] for an array of strings and a possibly undefined [v]. *)
Definition array_includes (arr : list string) (v : option string) : bool :=
  match v with
  | None => false
  | Some s => existsb (String.eqb s) arr
  end.

(** [arr.findIndex(p)]: the first index satisfying [p], or -1. *)
Fixpoint findIndex_from {A} (p : A -> bool) (arr : list A) (i : Z) : Z :=
  match arr with
  | [] => (-1)%Z
  | x :: rest => if p x then i else findIndex_from p rest (i + 1)%Z
  end.
Definition findIndex {A} (p : A -> bool) (arr : list A) : Z :=
  findIndex_from p arr 0%Z.

(** [arr[arr.length - 1]]: [undefined] (here [None]) on the empty array. *)
Definition last_element {A} (arr : list A) : option A :=
  nth_error arr (length arr - 1).

(** A JavaScript string as the sequence of its UTF-16 code units. *)
Definition JsString : Type := list N.

(** The JavaScript string of a literal made of ASCII characters. *)
Definition js (literal : string) : JsString :=
  map N_of_ascii (list_ascii_of_string literal).

(** [s === ''] *)
Definition is_empty (s : JsString) : bool :=
  match s with
  | [] => true
  | _ :: _ => false
  end.

(** The code units [trim] strips, the white space and the line terminators
    of ECMAScript: TAB, LF, VT, FF, CR, SP, NBSP, U+1680, U+2000 to U+200A,
    LS, PS, U+202F, U+205F, U+3000 and U+FEFF. *)
Definition is_white_space (c : N) : bool :=
  (((0x9 <=? c) && (c <=? 0xD)) || (c =? 0x20) || (c =? 0xA0)
   || (c =? 0x1680) || ((0x2000 <=? c) && (c <=? 0x200A))
   || (c =? 0x2028) || (c =? 0x2029) || (c =? 0x202F) || (c =? 0x205F)
   || (c =? 0x3000) || (c =? 0xFEFF))%N.

Fixpoint trimStart (s : JsString) : JsString :=
  match s with
  | [] => []
  | c :: rest => if is_white_space c then trimStart rest else s
  end.

Definition trimEnd (s : JsString) : JsString := rev (trimStart (rev s)).

Definition trim (s : JsString) : JsString := trimEnd (trimStart s).

(** [s.substring(start, stop)]: the code units from the smaller to the
    larger of the two indices, each clamped to the length of [s]. *)
Definition substring (s : JsString) (start stop : nat) : JsString :=
  firstn (Nat.max start stop - Nat.min start stop)
         (skipn (Nat.min start stop) s).

End Js.
Import Js.

(** ** Messages (the part of @langchain/core/messages the sources read) *)
Module Messages.

(** [_getType()] of a message; the seed object [{ role: 'user', ... }] is a
    human message. *)
Inductive MessageType : Type := human | ai | tool | system.

(** [content] is a string, an array of content parts, or absent. *)
Inductive MessageContent : Type :=
| ContentText (s : string)
| ContentParts (parts : list string)
| ContentUndefined.

Record ToolCall : Type := {
  tc_name : string;
  tc_args : string;
  tc_id : option string
}.

(** [tool_calls] is [None] when the object has no such property (human and
    tool messages, the seed object), [Some l] on an AI message. *)
Record BaseMessage : Type := {
  type_ : MessageType;
  content : MessageContent;
  name : option string;
  msg_id : option string;
  tool_calls : option (list ToolCall)
}.

(** [new HumanMessage({ ...result, name: name })]: the constructor keeps
    [content] and [id] of the spread fields, takes the given [name], and has
    no [tool_calls] property. *)
Definition HumanMessage (fields : BaseMessage) (name' : string) : BaseMessage :=
  {| type_ := human;
     content := content fields;
     name := Some name';
     msg_id := msg_id fields;
     tool_calls := None |}.

End Messages.
Import Messages.

(** ** The state graph of [StateGraphService] *)
Module StateGraph.

(** *** State and reducers ([agentState]) *)

Record AgentState : Type := {
  messages : list BaseMessage;
  sender : string
}.

(** What a node returns: a partial state. The tool node returns messages
    only, an agent node returns messages and [sender]. *)
Record Update : Type := {
  u_messages : list BaseMessage;
  u_sender : option string
}.

(** [reducer: (x, y) => x.concat(y)] *)
Definition messages_reducer (x y : list BaseMessage) : list BaseMessage :=
  x ++ y.

(** [reducer: (x, y) => y ?? x ?? 'user'] *)
Definition sender_reducer (x y : option string) : string :=
  match y with
  | Some v => v
  | None => match x with
            | Some v => v
            | None => "user"
            end
  end.

(** [default: () => 'user'] *)
Definition sender_default : string := "user".

(** Folding a node's partial state into the channels: a channel absent from
    the update keeps its value. *)
Definition apply_update (s : AgentState) (u : Update) : AgentState :=
  {| messages := messages_reducer (messages s) (u_messages u);
     sender := match u_sender u with
               | Some _ => sender_reducer (Some (sender s)) (u_sender u)
               | None => sender s
               end |}.

(** *** Agent nodes *)

(** [result.tool_calls && result.tool_calls.length > 0] *)
Definition has_tool_calls (m : BaseMessage) : bool :=
  match tool_calls m with
  | Some (_ :: _) => true
  | _ => false
  end.

(** [runAgentNode]: [agent] is the outcome of [agent.invoke(state, config)],
    [None] when the invocation rejects. *)
Definition runAgentNode (agent : AgentState -> option BaseMessage)
    (state : AgentState) (name' : string) : option Update :=
  match agent state with
  | None => None
  | Some result =>
      let result' :=
        if negb (has_tool_calls result) then HumanMessage result name'
        else result in
      Some {| u_messages := [result']; u_sender := Some name' |}
  end.

(** The predicate of the Tavily node's [state.messages.filter(...)]. *)
Definition tavily_keep (e : BaseMessage) : bool :=
  match tool_calls e with
  | Some (c :: cs) =>
      (findIndex (fun toolCall => String.eqb (tc_name toolCall) "rag_search")
                 (c :: cs) =? -1)%Z
  | _ => negb (array_includes ["Rag"; "rag_search"] (name e))
  end.

(** [{ ...state, messages }] with the filtered messages. *)
Definition tavily_view (state : AgentState) : AgentState :=
  {| messages := List.filter tavily_keep (messages state);
     sender := sender state |}.

(** *** Router *)

(** [typeof m.content === 'string' && m.content.includes('FINAL ANSWER')] *)
Definition has_sentinel (m : BaseMessage) : bool :=
  match content m with
  | ContentText s => includes s "FINAL ANSWER"
  | _ => false
  end.

(** [router]: the first test guards the undefined last message of an empty
    log with [?.], the second reads its [content] unguarded. *)
Definition router (state : AgentState) : Res string :=
  let lastMessage := last_element (messages state) in
  if match lastMessage with
     | Some m => has_tool_calls m
     | None => false
     end
  then Ok "call_tool"
  else match lastMessage with
       | None => Throw TypeError
       | Some m => if has_sentinel m then Ok "end" else Ok "continue"
       end.

(** *** Nodes and edges *)

Inductive Node : Type := Coordinator | Rag | Tavily | call_tool.

Inductive Target : Type := Goto (n : Node) | END.

Definition node_name (n : Node) : string :=
  match n with
  | Coordinator => "Coordinator"
  | Rag => "Rag"
  | Tavily => "Tavily"
  | call_tool => "call_tool"
  end.

(** The path function of each conditional edge. *)
Definition path (n : Node) (state : AgentState) : Res string :=
  match n with
  | call_tool => Ok (sender state)
  | _ => router state
  end.

(** The path map of each conditional edge. *)
Definition path_map (n : Node) : list (string * Target) :=
  match n with
  | Coordinator => [("continue", Goto Rag); ("end", END)]
  | Rag => [("continue", Goto Tavily); ("call_tool", Goto call_tool)]
  | Tavily => [("continue", Goto Coordinator); ("call_tool", Goto call_tool)]
  | call_tool => [("Tavily", Goto Tavily); ("Rag", Goto Rag)]
  end.

Fixpoint lookup_label (label : string) (m : list (string * Target)) : option Target :=
  match m with
  | [] => None
  | (k, t) :: rest => if String.eqb k label then Some t else lookup_label label rest
  end.

(** Following the conditional edge out of [n]: a label without an entry in
    the path map has no destination. *)
Definition next_target (n : Node) (state : AgentState) : Res Target :=
  bind (path n state) (fun label =>
    match lookup_label label (path_map n) with
    | Some t => Ok t
    | None => Throw UnknownDestination
    end).

(** *** Collaborators

    The three agents ([prompt.pipe(llm.bindTools(...))]) and the prebuilt tool
    node are external: each is a function of the step index and of the state
    it is invoked on, so that any sequence of responses within a run is some
    such function; [None] is a rejected invocation. *)
Record Collaborators : Type := {
  coordinatorAgent : nat -> AgentState -> option BaseMessage;
  knowledgeAgent : nat -> AgentState -> option BaseMessage;
  tavilyAgent : nat -> AgentState -> option BaseMessage;
  toolNode : nat -> AgentState -> option (list BaseMessage)
}.

(** The functions registered by [addNode]. *)
Definition run_node (env : Collaborators) (n : Node) (k : nat)
    (state : AgentState) : option Update :=
  match n with
  | Coordinator => runAgentNode (coordinatorAgent env k) state "Coordinator"
  | Rag => runAgentNode (knowledgeAgent env k) state "Rag"
  | Tavily => runAgentNode (tavilyAgent env k) (tavily_view state) "Tavily"
  | call_tool =>
      match toolNode env k state with
      | Some msgs => Some {| u_messages := msgs; u_sender := None |}
      | None => None
      end
  end.

(** *** Executor *)

Inductive Status : Type :=
| Running (n : Node)
| Finished
| Failed (e : Exn).

Record Config : Type := {
  status : Status;
  state : AgentState;
  step : nat
}.

(** Modelled from the spec: the graph executor ([graph.invoke] of the
    compiled graph, which belongs to the graph library and not to the
    sources). One step, following the step algorithm of section 4.5: a step
    whose number would exceed the recursion limit fails the run with
    [RecursionLimitExceeded]; otherwise the node at the current position is
    invoked, its result is folded into the state with the reducers, the step
    counter is incremented and the conditional edge of the node is followed.
    A failed invocation or a label that resolves to no node is fatal to the
    run. *)
Definition exec_step (env : Collaborators) (limit : nat) (c : Config) : Config :=
  match status c with
  | Running n =>
      if (limit <? S (step c))%nat then
        {| status := Failed RecursionLimitExceeded;
           state := state c; step := step c |}
      else
        match run_node env n (step c) (state c) with
        | None =>
            {| status := Failed NodeFailure;
               state := state c; step := S (step c) |}
        | Some u =>
            let state' := apply_update (state c) u in
            {| status := match next_target n state' with
                         | Ok (Goto n') => Running n'
                         | Ok END => Finished
                         | Throw e => Failed e
                         end;
               state := state';
               step := S (step c) |}
        end
  | _ => c
  end.

Definition terminal (c : Config) : bool :=
  match status c with
  | Running _ => false
  | _ => true
  end.

(** Modelled from the spec: the executor loop, with explicit fuel. *)
Fixpoint exec_loop (env : Collaborators) (limit fuel : nat) (c : Config) : Config :=
  match fuel with
  | O => c
  | S fuel' =>
      if terminal c then c else exec_loop env limit fuel' (exec_step env limit c)
  end.

(** Modelled from the spec: the default recursion limit of the executor. The
    source's [config: { recursionLimit: 25 }] sits inside the input object of
    [invoke], where it is not a channel of the state; the limit in force is
    the default one, which is 25 as well. *)
Definition DEFAULT_RECURSION_LIMIT : nat := 25.

(** The seed [{ role: 'user', content: input }]. *)
Definition user_message (input : MessageContent) : BaseMessage :=
  {| type_ := human; content := input; name := None; msg_id := None;
     tool_calls := None |}.

(** The state after the input is written to the channels ([messages] takes
    the array of the input, [sender] its default); the edge
    [START -> Coordinator] makes Coordinator the first node. *)
Definition START (input : MessageContent) : Config :=
  {| status := Running Coordinator;
     state := {| messages := [user_message input];
                 sender := sender_default |};
     step := 0 |}.

(** [graph.invoke(input)] with a given limit: [None] if the loop is still
    running when the fuel is spent. *)
Definition invoke (env : Collaborators) (limit fuel : nat)
    (input : MessageContent) : option (Res AgentState) :=
  let c := exec_loop env limit fuel (START input) in
  match status c with
  | Running _ => None
  | Finished => Some (Ok (state c))
  | Failed e => Some (Throw e)
  end.

(** [StateGraphService.run] *)
Definition run (env : Collaborators) (input : MessageContent)
    : option (Res AgentState) :=
  invoke env DEFAULT_RECURSION_LIMIT (DEFAULT_RECURSION_LIMIT + 1) input.

(** [body.question] of a request body that may lack the field. *)
Definition body_question (question : option string) : MessageContent :=
  match question with
  | Some q => ContentText q
  | None => ContentUndefined
  end.

(** [StateGraphController.run]: the content of the last message of the
    final state. *)
Definition controller_run (env : Collaborators) (question : option string)
    : option (Res MessageContent) :=
  match run env (body_question question) with
  | None => None
  | Some (Throw e) => Some (Throw e)
  | Some (Ok lastState) =>
      match last_element (messages lastState) with
      | Some m => Some (Ok (content m))
      | None => Some (Throw TypeError)
      end
  end.

(** Configurations a run can be in. *)
Inductive reachable (env : Collaborators) (limit : nat) (input : MessageContent)
    : Config -> Prop :=
| reach_start : reachable env limit input (START input)
| reach_step c :
    reachable env limit input c ->
    reachable env limit input (exec_step env limit c).

(** What holds of every configuration of a run with recursion limit
    [limit]. *)
Record invariant (limit : nat) (c : Config) : Prop := {
  inv_log : messages (state c) <> [];
  inv_budget : step c <= limit;
  inv_sender : status c = Running call_tool ->
               sender (state c) = "Rag" \/ sender (state c) = "Tavily";
  inv_errors : forall e, status c = Failed e ->
               e = RecursionLimitExceeded \/ e = NodeFailure \/
               e = UnknownDestination
}.

End StateGraph.
Import StateGraph.

(** ** [KnowledgeService.search] *)
Module Knowledge.

Section Search.

(** Embedding vectors, document metadata and similarity scores are opaque
    to [search]. *)
Variables Embedding Metadata Score : Type.

Record Document : Type := {
  pageContent : JsString;
  metadata : Metadata
}.

Record SearchResult : Type := {
  r_content : JsString;
  r_metadata : Metadata;
  r_score : Score
}.

Record SearchResponse : Type := {
  message : string;
  results : list SearchResult
}.

(** [await this.embeddings.embedQuery(query)], a call to the embedding
    service that returns or throws. *)
Variable embedQuery : JsString -> Res Embedding.

(** The documents of the vector store with their scores against a query
    vector, best first. *)
Variable ranked : Embedding -> list (Document * Score).

(** Modelled from the spec: the vector store's top-k search (library code),
    which returns the [k] best documents, best first. *)
Definition similaritySearchVectorWithScore (query : Embedding) (k : nat)
    : list (Document * Score) :=
  firstn k (ranked query).

(** [search]: [query] is [None] when the caller passes [undefined]. What
    the embedding call throws is not caught. *)
Definition search (query : option JsString) : Res SearchResponse :=
  match query with
  | None => Throw BadRequestException
  | Some q =>
      if is_empty q || is_empty (trim q) then
        Throw BadRequestException
      else
        bind (embedQuery q) (fun embedding =>
          let found := similaritySearchVectorWithScore embedding 1 in
          if (length found =? 0)%nat then
            Ok {| message := "Aucun résultat trouvé. Assurez-vous que des documents ont été ingérés.";
                  results := [] |}
          else
            Ok {| message := "résultat trouvé";
                  results := map (fun ds : Document * Score =>
                                    {| r_content := pageContent (fst ds);
                                       r_metadata := metadata (fst ds);
                                       r_score := snd ds |}) found |})
  end.

End Search.

Arguments pageContent {Metadata} _.
Arguments metadata {Metadata} _.
Arguments r_content {Metadata Score} _.
Arguments r_metadata {Metadata Score} _.
Arguments r_score {Metadata Score} _.
Arguments message {Metadata Score} _.
Arguments results {Metadata Score} _.
Arguments similaritySearchVectorWithScore {Embedding Metadata Score} ranked query k.
Arguments search {Embedding Metadata Score} embedQuery ranked query.

End Knowledge.

(** ** Arrays as heap objects

    The reducer of [messages] and the Tavily node work on JavaScript arrays,
    which are shared by reference. A store maps a reference to the contents
    of the array it denotes; [concat] and [filter] allocate their result. *)
Module Heap.

Definition alloc (h : gmap nat (list BaseMessage)) (xs : list BaseMessage)
    : gmap nat (list BaseMessage) * nat :=
  let r := fresh (dom h) in (<[r:=xs]> h, r).

(** [x.concat(y)] *)
Definition array_concat (h : gmap nat (list BaseMessage)) (x y : nat)
    : option (gmap nat (list BaseMessage) * nat) :=
  match h !! x, h !! y with
  | Some xs, Some ys => Some (alloc h (xs ++ ys))
  | _, _ => None
  end.

(** [x.filter(p)] *)
Definition array_filter (p : BaseMessage -> bool)
    (h : gmap nat (list BaseMessage)) (x : nat)
    : option (gmap nat (list BaseMessage) * nat) :=
  match h !! x with
  | Some xs => Some (alloc h (List.filter p xs))
  | None => None
  end.

(** A state object holding a reference to its message array. *)
Record StateRef : Type := {
  messages_ref : nat;
  sender_val : string
}.

(** The reducer of [messages] on references. *)
Definition messages_reducer_ref (h : gmap nat (list BaseMessage)) (x y : nat)
    : option (gmap nat (list BaseMessage) * nat) :=
  array_concat h x y.

(** The Tavily node's [{ ...state, messages }] on references. *)
Definition tavily_view_ref (h : gmap nat (list BaseMessage)) (s : StateRef)
    : option (gmap nat (list BaseMessage) * StateRef) :=
  match array_filter tavily_keep h (messages_ref s) with
  | Some (h', r) => Some (h', {| messages_ref := r; sender_val := sender_val s |})
  | None => None
  end.

(** The state a state object denotes in a store. *)
Definition deref (h : gmap nat (list BaseMessage)) (s : StateRef)
    : option AgentState :=
  match h !! messages_ref s with
  | Some ms => Some {| messages := ms; sender := sender_val s |}
  | None => None
  end.

End Heap.

(** ** What a log shows *)
Module Observations.

(** The log holds a final answer of agent [who]: a human message that bears
    its name, as [runAgentNode] builds them. *)
Definition answered (who : string) (log : list BaseMessage) : Prop :=
  exists m, In m log /\ type_ m = human /\ name m = Some who.

(** The partial state that has the effect of [u1] followed by [u2]. *)
Definition then_update (u1 u2 : Update) : Update :=
  {| u_messages := u_messages u1 ++ u_messages u2;
     u_sender := match u_sender u2 with
                 | Some v => Some v
                 | None => u_sender u1
                 end |}.

End Observations.
Import Observations.

(** ** Collaborators of concrete runs *)
Module Scenarios.

(** A completion that is plain text. *)
Definition text_reply (t : string) : BaseMessage :=
  {| type_ := ai; content := ContentText t; name := None; msg_id := None;
     tool_calls := Some [] |}.

(** A completion that asks for one tool call. *)
Definition tool_call_reply (tool_name args : string) : BaseMessage :=
  {| type_ := ai; content := ContentText ""; name := None; msg_id := None;
     tool_calls := Some [ {| tc_name := tool_name; tc_args := args;
                             tc_id := Some "call_1" |} ] |}.

(** The message the tool node returns for a call to [tool_name]. *)
Definition tool_result (tool_name t : string) : BaseMessage :=
  {| type_ := tool; content := ContentText t; name := Some tool_name;
     msg_id := None; tool_calls := None |}.

(** Every agent answers with the same text and no tool is ever called. *)
Definition chatty (t : string) : Collaborators :=
  {| coordinatorAgent := fun _ _ => Some (text_reply t);
     knowledgeAgent := fun _ _ => Some (text_reply t);
     tavilyAgent := fun _ _ => Some (text_reply t);
     toolNode := fun _ _ => Some [] |}.

(** The coordinator, which has no tool, asks for a tool call. *)
Definition coordinator_calls_tool : Collaborators :=
  {| coordinatorAgent := fun _ _ => Some (tool_call_reply "rag_search" "q");
     knowledgeAgent := fun _ _ => Some (text_reply "");
     tavilyAgent := fun _ _ => Some (text_reply "");
     toolNode := fun _ _ => Some [] |}.

(** The knowledge agent queries its tool once, at its first turn. *)
Definition rag_calls_tool : Collaborators :=
  {| coordinatorAgent := fun _ _ => Some (text_reply "please search");
     knowledgeAgent := fun k _ =>
       if (k =? 1)%nat then Some (tool_call_reply "rag_search" "q")
       else Some (text_reply "nothing in the base");
     tavilyAgent := fun _ _ => Some (text_reply "Paris");
     toolNode := fun _ _ => Some [tool_result "rag_search" "{}"] |}.

End Scenarios.

(** ** Ingestion: [KnowledgeService.ingestPdfFile], [ingestUrl], [ingest] *)
Module Ingestion.

(** What a call throws: a [BadRequestException] or another error, each with
    its message, or the [TypeError] of a property read on [undefined]. *)
Inductive Thrown : Type :=
| BadRequest (message : string)
| OtherError (message : string)
| ReadOfUndefined.

(** [error.message]; the text of a [TypeError] is the engine's, of which
    the beginning is kept. *)
Definition error_message (e : Thrown) : string :=
  match e with
  | BadRequest m => m
  | OtherError m => m
  | ReadOfUndefined => "Cannot read properties of undefined"
  end.

Inductive Try (A : Type) : Type :=
| Done (a : A)
| Raise (e : Thrown).
Arguments Done {A} a.
Arguments Raise {A} e.

(** The fields of [Express.Multer.File] the sources read. *)
Record File : Type := {
  buffer : string;
  originalname : string;
  size : nat;
  mimetype : string
}.

Section Service.

Variables Embedding Metadata : Type.

(** An entry of [documents] in the report: page number, preview, metadata. *)
Record Preview : Type := {
  page : nat;
  preview_content : JsString;
  preview_metadata : Metadata
}.

(** The object an ingestion returns; [report_size] and [pages] are present
    for a PDF file only. *)
Record Report : Type := {
  report_message : string;
  originalName : string;
  report_size : option nat;
  pages : option nat;
  chunks : nat;
  documents : list Preview;
  splits : list (Knowledge.Document Metadata)
}.

(** An ingestion returns the empty array for a missing input, a report
    otherwise. *)
Inductive IngestResult : Type :=
| Skipped
| Ingested (r : Report).

(** A call [this.vectorStore.addVectors(vectors, documents)], the only
    access of the ingestion to the store. *)
Record Write : Type := {
  w_vectors : list Embedding;
  w_documents : list (Knowledge.Document Metadata)
}.

(** [new PDFLoader(blob).load()] on the buffer of the file,
    [new CheerioWebBaseLoader(url).load()], [textSplitter.splitDocuments]
    and [this.embeddings.embedDocuments]: each returns or throws. *)
Variable pdf_load : string -> Try (list (Knowledge.Document Metadata)).
Variable web_load : string -> Try (list (Knowledge.Document Metadata)).
Variable splitDocuments :
  list (Knowledge.Document Metadata) -> Try (list (Knowledge.Document Metadata)).
Variable embedDocuments : list JsString -> Try (list Embedding).

(** [ingest]: the splits it returns and the writes to the store it made. *)
Definition ingest (documents : list (Knowledge.Document Metadata))
    : Try (list (Knowledge.Document Metadata)) * list Write :=
  match splitDocuments documents with
  | Raise e => (Raise e, [])
  | Done allSplits =>
      match embedDocuments (map Knowledge.pageContent allSplits) with
      | Raise e => (Raise e, [])
      | Done embeddingsVectors =>
          (Done allSplits,
           [ {| w_vectors := embeddingsVectors; w_documents := allSplits |} ])
      end
  end.

(** [docs.map((doc, index) => ({ page: index + 1, pageContent:
    doc.pageContent.substring(0, 200) + '...', metadata: doc.metadata }))] *)
Fixpoint previews_from (index : nat) (docs : list (Knowledge.Document Metadata))
    : list Preview :=
  match docs with
  | [] => []
  | doc :: rest =>
      {| page := index + 1;
         preview_content :=
           Js.substring (Knowledge.pageContent doc) 0 200 ++ js "...";
         preview_metadata := Knowledge.metadata doc |}
      :: previews_from (S index) rest
  end.

Definition previews (docs : list (Knowledge.Document Metadata)) : list Preview :=
  previews_from 0 docs.

(** The [catch] of both ingestions. *)
Definition processing_error (error : Thrown) : Thrown :=
  BadRequest ("Erreur lors du traitement du PDF: " ++ error_message error)%string.

(** [ingestPdfFile]: [file] is [None] when it is undefined. *)
Definition ingestPdfFile (file : option File) : Try IngestResult * list Write :=
  match file with
  | None => (Done Skipped, [])
  | Some f =>
      match pdf_load (buffer f) with
      | Raise error => (Raise (processing_error error), [])
      | Done docs =>
          match ingest docs with
          | (Raise error, writes) => (Raise (processing_error error), writes)
          | (Done allSplits, writes) =>
              (Done (Ingested
                 {| report_message := "PDF ingéré avec succès";
                    originalName := originalname f;
                    report_size := Some (size f);
                    pages := Some (length docs);
                    chunks := length allSplits;
                    documents := previews docs;
                    splits := allSplits |}),
               writes)
          end
      end
  end.

(** [ingestUrl]: [url] is [None] when it is undefined; the empty string is
    falsy too. *)
Definition ingestUrl (url : option string) : Try IngestResult * list Write :=
  match url with
  | None => (Done Skipped, [])
  | Some u =>
      if String.eqb u "" then (Done Skipped, [])
      else
        match web_load u with
        | Raise error => (Raise (processing_error error), [])
        | Done docs =>
            match ingest docs with
            | (Raise error, writes) => (Raise (processing_error error), writes)
            | (Done allSplits, writes) =>
                (Done (Ingested
                   {| report_message := "URL ingérée avec succès";
                      originalName := u;
                      report_size := None;
                      pages := None;
                      chunks := length allSplits;
                      documents := previews docs;
                      splits := allSplits |}),
                 writes)
            end
        end
  end.

End Service.

Arguments page {Metadata} _.
Arguments preview_content {Metadata} _.
Arguments preview_metadata {Metadata} _.
Arguments report_message {Metadata} _.
Arguments originalName {Metadata} _.
Arguments report_size {Metadata} _.
Arguments pages {Metadata} _.
Arguments chunks {Metadata} _.
Arguments documents {Metadata} _.
Arguments splits {Metadata} _.
Arguments Skipped {Metadata}.
Arguments Ingested {Metadata} r.
Arguments w_vectors {Embedding Metadata} _.
Arguments w_documents {Embedding Metadata} _.
Arguments ingest {Embedding Metadata} splitDocuments embedDocuments documents.
Arguments previews_from {Metadata} index docs.
Arguments previews {Metadata} docs.
Arguments ingestPdfFile {Embedding Metadata} pdf_load splitDocuments
  embedDocuments file.
Arguments ingestUrl {Embedding Metadata} web_load splitDocuments
  embedDocuments url.

End Ingestion.

(** ** [KnowledgeController]: the upload handlers *)
Module KnowledgeController.

Import Ingestion.

(** How a handler ends: with a response, or rejected with one of the listed
    reasons. When several calls of a [Promise.all] throw, the one that throws
    first decides, which is a matter of timing. *)
Inductive Outcome (A : Type) : Type :=
| Responded (a : A)
| Rejected (reasons : list Thrown).
Arguments Responded {A} a.
Arguments Rejected {A} reasons.

(** [`${n}`] for a length. *)
Definition decimal (n : nat) : string := NilZero.string_of_uint (Nat.to_uint n).

Section Handlers.

Variables Embedding Metadata : Type.
Variable pdf_load : string -> Try (list (Knowledge.Document Metadata)).
Variable web_load : string -> Try (list (Knowledge.Document Metadata)).
Variable splitDocuments :
  list (Knowledge.Document Metadata) -> Try (list (Knowledge.Document Metadata)).
Variable embedDocuments : list JsString -> Try (list Embedding).

(** The reasons of the calls that threw. *)
Fixpoint thrown_by {A} (calls : list (Try A)) : list Thrown :=
  match calls with
  | [] => []
  | Done _ :: rest => thrown_by rest
  | Raise e :: rest => e :: thrown_by rest
  end.

(** The values of the calls that returned. *)
Fixpoint returned_by {A} (calls : list (Try A)) : list A :=
  match calls with
  | [] => []
  | Done a :: rest => a :: returned_by rest
  | Raise _ :: rest => returned_by rest
  end.

(** [await Promise.all(calls)]: the values in the order of the calls when
    all return. Every call runs to its end whatever the others do, so the
    writes are those of all the calls (listed in the order of the calls). *)
Definition promise_all {A} (calls : list (Try A * list (Write Embedding Metadata)))
    : Outcome (list A) * list (Write Embedding Metadata) :=
  let writes := flat_map snd calls in
  match thrown_by (map fst calls) with
  | [] => (Responded (returned_by (map fst calls)), writes)
  | reasons => (Rejected reasons, writes)
  end.

(** An entry of the results of [uploadPdfs]:
    [{ fileName: files[index].originalname, ...result }]. *)
Record PdfEntry : Type := {
  fileName : string;
  entry_result : IngestResult Metadata
}.

Record PdfResponse : Type := {
  pdf_message : string;
  pdf_totalFiles : nat;
  pdf_results : list PdfEntry
}.

(** [uploadPdfs] of [knowledge.controller.ts]: [files] is [None] when
    undefined. *)
Definition uploadPdfs (files : option (list File))
    : Outcome PdfResponse * list (Write Embedding Metadata) :=
  match files with
  | None | Some [] => (Rejected [BadRequest "Aucun fichier fourni"], [])
  | Some fs =>
      match promise_all
              (map (fun file =>
                      ingestPdfFile pdf_load splitDocuments embedDocuments
                        (Some file)) fs) with
      | (Rejected reasons, writes) => (Rejected reasons, writes)
      | (Responded results, writes) =>
          (Responded
             {| pdf_message := (decimal (length fs)
                                ++ " PDF(s) traité(s) avec succès")%string;
                pdf_totalFiles := length fs;
                pdf_results :=
                  map (fun fr : File * IngestResult Metadata =>
                         {| fileName := originalname (fst fr);
                            entry_result := snd fr |})
                      (combine fs results) |},
           writes)
      end
  end.

(** The request body of [upload]. *)
Record UploadBody : Type := {
  urls : option (list string)
}.

Record UploadResponse : Type := {
  up_message : string;
  up_totalFiles : nat;
  up_totalUrls : nat;
  up_results : list (IngestResult Metadata)
}.

(** [upload], the handler that takes files and urls: [files] and [body]
    are [None] when undefined. The body is read unguarded after the files
    have been ingested. *)
Definition upload (files : option (list File)) (body : option UploadBody)
    : Outcome UploadResponse * list (Write Embedding Metadata) :=
  let pdf :=
    match files with
    | Some (f :: fs) =>
        promise_all
          (map (fun file =>
                  ingestPdfFile pdf_load splitDocuments embedDocuments
                    (Some file)) (f :: fs))
    | _ => (Responded [], [])
    end in
  match pdf with
  | (Rejected reasons, writes) => (Rejected reasons, writes)
  | (Responded pdfResults, writes) =>
      match body with
      | None => (Rejected [ReadOfUndefined], writes)
      | Some b =>
          let url :=
            match urls b with
            | Some us =>
                promise_all
                  (map (fun u =>
                          ingestUrl web_load splitDocuments embedDocuments
                            (Some u)) us)
            | None => (Responded [], [])
            end in
          match url with
          | (Rejected reasons, writes') => (Rejected reasons, writes ++ writes')
          | (Responded urlResults, writes') =>
              let results := pdfResults ++ urlResults in
              (Responded
                 {| up_message := (decimal (length results)
                                   ++ " Document(s) traité(s) avec succès")%string;
                    up_totalFiles := match files with
                                     | Some fs => length fs
                                     | None => 0
                                     end;
                    up_totalUrls := match urls b with
                                    | Some us => length us
                                    | None => 0
                                    end;
                    up_results := results |},
               writes ++ writes')
          end
      end
  end.

End Handlers.

(** The files and the urls a request carries, none when the field is
    undefined. *)
Definition files_of (files : option (list File)) : list File :=
  match files with
  | Some fs => fs
  | None => []
  end.

Definition urls_of (b : UploadBody) : list string :=
  match urls b with
  | Some us => us
  | None => []
  end.

Arguments fileName {Metadata} _.
Arguments entry_result {Metadata} _.
Arguments pdf_message {Metadata} _.
Arguments pdf_totalFiles {Metadata} _.
Arguments pdf_results {Metadata} _.
Arguments up_message {Metadata} _.
Arguments up_totalFiles {Metadata} _.
Arguments up_totalUrls {Metadata} _.
Arguments up_results {Metadata} _.
Arguments thrown_by {A} calls.
Arguments returned_by {A} calls.
Arguments promise_all {Embedding Metadata A} calls.
Arguments uploadPdfs {Embedding Metadata} pdf_load splitDocuments
  embedDocuments files.
Arguments upload {Embedding Metadata} pdf_load web_load splitDocuments
  embedDocuments files body.

End KnowledgeController.

(** ** Further concrete runs *)
Module Examples.

(** The coordinator forwards the question at its first turn and concludes at
    its second; both specialists answer without tool. *)
Definition one_cycle : Collaborators :=
  {| coordinatorAgent := fun k _ =>
       if (k =? 0)%nat then Some (Scenarios.text_reply "please search")
       else Some (Scenarios.text_reply "Documents: none. Web: Paris. FINAL ANSWER");
     knowledgeAgent := fun _ _ => Some (Scenarios.text_reply "nothing in the base");
     tavilyAgent := fun _ _ => Some (Scenarios.text_reply "Paris");
     toolNode := fun _ _ => Some [] |}.

(** Collaborators of the ingestion: a loader that reads the text of any
    buffer but [broken] as one document, a splitter that keeps the documents
    whole, and embeddings that are the lengths of the texts. *)
Definition load_text (text : string)
    : Ingestion.Try (list (Knowledge.Document string)) :=
  if String.eqb text "broken"
  then Ingestion.Raise (Ingestion.OtherError "Invalid PDF structure")
  else Ingestion.Done [ {| Knowledge.pageContent := js text;
                           Knowledge.metadata := "source" |} ].

Definition keep_whole (docs : list (Knowledge.Document string))
    : Ingestion.Try (list (Knowledge.Document string)) :=
  Ingestion.Done docs.

Definition embed_lengths (texts : list JsString) : Ingestion.Try (list nat) :=
  Ingestion.Done (map (@length N) texts).

Definition pdf_file (file_name text : string) : Ingestion.File :=
  {| Ingestion.buffer := text; Ingestion.originalname := file_name;
     Ingestion.size := String.length text;
     Ingestion.mimetype := "application/pdf" |}.

End Examples.

(** * Properties *)

(** ** JavaScript helpers *)

Lemma last_element_app {A} (xs : list A) (x : A) :
  last_element (xs ++ [x]) = Some x.
Proof.
  unfold last_element. rewrite length_app. simpl.
  replace (length xs + 1 - 1)%nat with (length xs) by lia.
  rewrite nth_error_app2 by lia. now rewrite Nat.sub_diag.
Qed.

Lemma last_element_nonempty {A} (xs : list A) :
  xs <> [] -> exists x, last_element xs = Some x.
Proof.
  destruct xs as [|a xs _] using rev_ind; [congruence|].
  intros _. exists a. apply last_element_app.
Qed.

Lemma findIndex_from_found {A} (p : A -> bool) (arr : list A) (i : Z) :
  (0 <= i)%Z ->
  (findIndex_from p arr i = -1)%Z <-> existsb p arr = false.
Proof.
  revert i. induction arr as [|x rest IH]; intros i Hi; simpl.
  - tauto.
  - destruct (p x); simpl.
    + split; [lia | discriminate].
    + apply IH. lia.
Qed.

Lemma findIndex_none {A} (p : A -> bool) (arr : list A) :
  (findIndex p arr =? -1)%Z = negb (existsb p arr).
Proof.
  unfold findIndex.
  destruct (existsb p arr) eqn:E; simpl.
  - apply Z.eqb_neq. intros H. apply findIndex_from_found in H; [congruence | lia].
  - apply Z.eqb_eq. apply findIndex_from_found; [lia | assumption].
Qed.

(** ** Router *)

(** The labels the router can return. *)
Lemma router_labels (s : AgentState) (label : string) :
  router s = Ok label -> In label ["continue"; "call_tool"; "end"].
Proof.
  unfold router.
  destruct (last_element (messages s)) as [m|]; [|discriminate].
  destruct (has_tool_calls m).
  - intros [= <-]. simpl; auto.
  - destruct (has_sentinel m); intros [= <-]; simpl; auto.
Qed.

(** On a log with a last message the router returns a label. *)
Lemma router_total_nonempty (s : AgentState) :
  messages s <> [] ->
  exists label, router s = Ok label /\ In label ["continue"; "call_tool"; "end"].
Proof.
  intros Hne. destruct (last_element_nonempty _ Hne) as [m Hm].
  assert (exists label, router s = Ok label) as [label Hl].
  { unfold router. rewrite Hm.
    destruct (has_tool_calls m); [eauto|].
    destruct (has_sentinel m); eauto. }
  exists label. split; [assumption | eapply router_labels; eassumption].
Qed.

(** C2: whenever the last message of the log carries at least one tool call,
    the router answers [call_tool], whatever the content of that message is,
    the termination sentinel included. *)
Theorem router_tool_call_precedence :
  forall (log : list BaseMessage) (m : BaseMessage) (from : string)
         (c : ToolCall) (cs : list ToolCall),
    tool_calls m = Some (c :: cs) ->
    router {| messages := log ++ [m]; sender := from |} = Ok "call_tool".
Proof.
  intros log m from c cs Htc. unfold router. simpl.
  rewrite last_element_app. unfold has_tool_calls. now rewrite Htc.
Qed.

Lemma router_tool_call_precedence_witness :
  router {| messages :=
              [] ++ [ {| type_ := ai;
                         content := ContentText "FINAL ANSWER";
                         name := None; msg_id := None;
                         tool_calls := Some [ {| tc_name := "rag_search";
                                                 tc_args := "q";
                                                 tc_id := None |} ] |} ];
            sender := "Rag" |} = Ok "call_tool".
Proof.
  apply (router_tool_call_precedence [] _ "Rag"
           {| tc_name := "rag_search"; tc_args := "q"; tc_id := None |} []).
  reflexivity.
Defined.

(** On a state whose message list is empty the router reads [content] of an
    undefined last message and throws. *)
Lemma router_throws_on_empty_log :
  router {| messages := []; sender := "user" |} = Throw TypeError.
Proof. reflexivity. Qed.

(** ** The Tavily node's filter *)

Lemma tavily_keep_tool_calls (e : BaseMessage) (c : ToolCall) (cs : list ToolCall) :
  tool_calls e = Some (c :: cs) ->
  tavily_keep e =
    negb (existsb (fun t => String.eqb (tc_name t) "rag_search") (c :: cs)).
Proof.
  intros H. unfold tavily_keep. rewrite H. apply findIndex_none.
Qed.

Lemma tavily_keep_plain (e : BaseMessage) :
  has_tool_calls e = false ->
  tavily_keep e = negb (array_includes ["Rag"; "rag_search"] (name e)).
Proof.
  unfold has_tool_calls, tavily_keep.
  destruct (tool_calls e) as [[|c cs]|]; [reflexivity | discriminate | reflexivity].
Qed.

Lemma array_includes_hit (arr : list string) (s : string) :
  In s arr -> array_includes arr (Some s) = true.
Proof.
  intros H. simpl. apply existsb_exists. exists s. split; [assumption|].
  apply String.eqb_refl.
Qed.




(** ** Agent nodes *)

(** A completion without tool calls comes back as a human message, not as
    an assistant one. *)
Lemma runAgentNode_retags_as_human :
  let reply := {| type_ := ai; content := ContentText "nothing found";
                  name := None; msg_id := None; tool_calls := Some [] |} in
  let s := {| messages := [user_message (ContentText "q")]; sender := "user" |} in
  exists m,
    runAgentNode (fun _ => Some reply) s "Rag"
    = Some {| u_messages := [m]; u_sender := Some "Rag" |} /\
    type_ m = human /\ type_ m <> ai.
Proof.
  simpl. eexists. split; [reflexivity|]. simpl. split; [reflexivity | discriminate].
Qed.

(** C6 (amended): when the completion of the agent carries no tool call, the
    node returns the single message [new HumanMessage] builds from it, a
    human message with the content of the completion and the name of the
    agent, and the sender it returns and leaves in the state is that name. *)
Theorem runAgentNode_without_tool_calls :
  forall (agent : AgentState -> option BaseMessage) (s : AgentState)
         (agent_name : string) (result : BaseMessage),
    agent s = Some result ->
    has_tool_calls result = false ->
    exists u,
      runAgentNode agent s agent_name = Some u /\
      u_messages u = [ {| type_ := human; content := content result;
                          name := Some agent_name; msg_id := msg_id result;
                          tool_calls := None |} ] /\
      u_sender u = Some agent_name /\
      sender (apply_update s u) = agent_name.
Proof.
  intros agent s agent_name result Hres Hno.
  unfold runAgentNode. rewrite Hres, Hno. simpl.
  eexists. split; [reflexivity|]. simpl. auto.
Qed.

Lemma runAgentNode_without_tool_calls_witness :
  let reply := {| type_ := ai; content := ContentText "nothing found";
                  name := None; msg_id := None; tool_calls := Some [] |} in
  let s := {| messages := [user_message (ContentText "q")]; sender := "user" |} in
  exists u,
    runAgentNode (fun _ => Some reply) s "Rag" = Some u /\
    u_messages u = [ {| type_ := human; content := content reply;
                        name := Some "Rag"; msg_id := msg_id reply;
                        tool_calls := None |} ] /\
    u_sender u = Some "Rag" /\
    sender (apply_update s u) = "Rag".
Proof.
  intros reply s.
  apply (runAgentNode_without_tool_calls (fun _ => Some reply) s "Rag" reply);
    reflexivity.
Defined.

(** ** Edges *)

Lemma next_target_Coordinator (s : AgentState) (t : Target) :
  next_target Coordinator s = Ok t -> t = Goto Rag \/ t = END.
Proof.
  unfold next_target, path. destruct (router s) as [label|e] eqn:Hr; [|discriminate].
  apply router_labels in Hr. simpl in Hr.
  destruct Hr as [<-|[<-|[<-|[]]]]; simpl; intros [= <-]; auto.
Qed.

Lemma next_target_Rag (s : AgentState) (t : Target) :
  next_target Rag s = Ok t -> t = Goto Tavily \/ t = Goto call_tool.
Proof.
  unfold next_target, path. destruct (router s) as [label|e] eqn:Hr; [|discriminate].
  apply router_labels in Hr. simpl in Hr.
  destruct Hr as [<-|[<-|[<-|[]]]]; simpl; intros [= <-]; auto.
Qed.

Lemma next_target_Tavily (s : AgentState) (t : Target) :
  next_target Tavily s = Ok t -> t = Goto Coordinator \/ t = Goto call_tool.
Proof.
  unfold next_target, path. destruct (router s) as [label|e] eqn:Hr; [|discriminate].
  apply router_labels in Hr. simpl in Hr.
  destruct Hr as [<-|[<-|[<-|[]]]]; simpl; intros [= <-]; auto.
Qed.

(** The edge out of [call_tool] leads to the node named by [sender], when
    that is one of the two names of its path map. *)
Lemma next_target_call_tool (s : AgentState) (t : Target) :
  next_target call_tool s = Ok t ->
  (sender s = "Tavily" /\ t = Goto Tavily) \/ (sender s = "Rag" /\ t = Goto Rag).
Proof.
  unfold next_target, path, bind, path_map, lookup_label.
  destruct (String.eqb "Tavily" (sender s)) eqn:E1.
  - apply String.eqb_eq in E1. intros [= <-]. auto.
  - destruct (String.eqb "Rag" (sender s)) eqn:E2; [|discriminate].
    apply String.eqb_eq in E2. intros [= <-]. auto.
Qed.

Lemma next_target_call_tool_mapped (s : AgentState) :
  sender s = "Rag" \/ sender s = "Tavily" ->
  exists n, next_target call_tool s = Ok (Goto n) /\
            node_name n = sender s /\ (n = Rag \/ n = Tavily).
Proof.
  unfold next_target, path, bind.
  intros [H|H]; rewrite H; simpl; [exists Rag | exists Tavily]; auto.
Qed.

(** The router never throws out of an agent node: errors of the edge out of
    a non-empty log are unknown destinations. *)
Lemma next_target_throw (n : Node) (s : AgentState) (e : Exn) :
  messages s <> [] -> next_target n s = Throw e -> e = UnknownDestination.
Proof.
  intros Hne. unfold next_target, bind.
  destruct (path n s) as [label|e'] eqn:Hp.
  - destruct (lookup_label label (path_map n)); [discriminate|]. now intros [= <-].
  - destruct n; simpl in Hp; try discriminate;
      destruct (router_total_nonempty s Hne) as (l & Hl & _); congruence.
Qed.

(** ** Nodes *)

Lemma run_node_agent_update (env : Collaborators) (n : Node) (k : nat)
    (s : AgentState) (u : Update) :
  n <> call_tool ->
  run_node env n k s = Some u ->
  exists m, u = {| u_messages := [m]; u_sender := Some (node_name n) |}.
Proof.
  intros Hn. destruct n; try congruence; simpl; unfold runAgentNode;
    match goal with |- context [match ?a with _ => _ end] => destruct a end;
    try discriminate; intros [= <-]; eauto.
Qed.

Lemma run_node_call_tool_update (env : Collaborators) (k : nat)
    (s : AgentState) (u : Update) :
  run_node env call_tool k s = Some u ->
  exists msgs, toolNode env k s = Some msgs /\
               u = {| u_messages := msgs; u_sender := None |}.
Proof.
  simpl. destruct (toolNode env k s) as [msgs|]; [|discriminate].
  intros [= <-]. eauto.
Qed.

Lemma run_node_sender (env : Collaborators) (n : Node) (k : nat)
    (s : AgentState) (u : Update) :
  run_node env n k s = Some u ->
  sender (apply_update s u) =
    match n with
    | call_tool => sender s
    | _ => node_name n
    end.
Proof.
  intros H. destruct n;
    try (apply run_node_agent_update in H; [|discriminate];
         destruct H as [m ->]; reflexivity).
  apply run_node_call_tool_update in H. destruct H as (msgs & _ & ->). reflexivity.
Qed.

Lemma run_node_agent_nonempty (env : Collaborators) (n : Node) (k : nat)
    (s : AgentState) (u : Update) :
  messages s <> [] ->
  run_node env n k s = Some u ->
  messages (apply_update s u) <> [].
Proof.
  intros Hne _. simpl. unfold messages_reducer.
  intros H. apply app_eq_nil in H. tauto.
Qed.

(** ** Executor *)

Section Executor.

Variable env : Collaborators.
Variable limit : nat.

Lemma exec_step_terminal (c : Config) :
  terminal c = true -> exec_step env limit c = c.
Proof.
  unfold terminal, exec_step. destruct (status c); [discriminate | reflexivity..].
Qed.

Lemma exec_step_out_of_steps (c : Config) (n : Node) :
  status c = Running n -> limit <= step c ->
  exec_step env limit c =
    {| status := Failed RecursionLimitExceeded; state := state c; step := step c |}.
Proof.
  intros Hs Hl. unfold exec_step. rewrite Hs.
  destruct (Nat.ltb_spec limit (S (step c))); [reflexivity | lia].
Qed.

Lemma exec_step_node_failure (c : Config) (n : Node) :
  status c = Running n -> step c < limit ->
  run_node env n (step c) (state c) = None ->
  exec_step env limit c =
    {| status := Failed NodeFailure; state := state c; step := S (step c) |}.
Proof.
  intros Hs Hl Hr. unfold exec_step. rewrite Hs, Hr.
  destruct (Nat.ltb_spec limit (S (step c))); [lia | reflexivity].
Qed.

Lemma exec_step_node (c : Config) (n : Node) (u : Update) :
  status c = Running n -> step c < limit ->
  run_node env n (step c) (state c) = Some u ->
  exec_step env limit c =
    {| status := match next_target n (apply_update (state c) u) with
                 | Ok (Goto n') => Running n'
                 | Ok END => Finished
                 | Throw e => Failed e
                 end;
       state := apply_update (state c) u;
       step := S (step c) |}.
Proof.
  intros Hs Hl Hr. unfold exec_step. rewrite Hs, Hr.
  destruct (Nat.ltb_spec limit (S (step c))); [lia | reflexivity].
Qed.

(** The three ways a step from a running configuration can go. *)
Lemma exec_step_running (c : Config) (n : Node) :
  status c = Running n ->
  (limit <= step c /\
   exec_step env limit c =
     {| status := Failed RecursionLimitExceeded;
        state := state c; step := step c |}) \/
  (step c < limit /\ run_node env n (step c) (state c) = None /\
   exec_step env limit c =
     {| status := Failed NodeFailure; state := state c; step := S (step c) |}) \/
  (step c < limit /\
   exists u, run_node env n (step c) (state c) = Some u /\
     exec_step env limit c =
       {| status := match next_target n (apply_update (state c) u) with
                    | Ok (Goto n') => Running n'
                    | Ok END => Finished
                    | Throw e => Failed e
                    end;
          state := apply_update (state c) u;
          step := S (step c) |}).
Proof.
  intros Hs. destruct (Nat.le_gt_cases limit (step c)) as [Hl|Hl].
  - left. split; [assumption|]. eapply exec_step_out_of_steps; eassumption.
  - right. destruct (run_node env n (step c) (state c)) as [u|] eqn:Hr.
    + right. split; [assumption|]. exists u. split; [reflexivity|].
      eapply exec_step_node; eassumption.
    + left. split; [assumption|]. split; [reflexivity|].
      eapply exec_step_node_failure; eassumption.
Qed.

(** The step counter grows by exactly one with each node invocation. *)
Lemma exec_step_counter (c : Config) (n : Node) :
  status c = Running n -> step c < limit ->
  step (exec_step env limit c) = S (step c).
Proof.
  intros Hs Hl.
  destruct (exec_step_running c n Hs) as [[H _]|[(_ & _ & ->)|(_ & u & _ & ->)]];
    [lia | reflexivity..].
Qed.

(** A step only appends to the log. *)
Lemma exec_step_extends (c : Config) :
  exists ys, messages (state (exec_step env limit c)) = messages (state c) ++ ys.
Proof.
  destruct (status c) as [n| |e] eqn:Hs.
  - destruct (exec_step_running c n Hs)
      as [[_ ->]|[(_ & _ & ->)|(_ & u & _ & ->)]]; simpl.
    + exists []. now rewrite app_nil_r.
    + exists []. now rewrite app_nil_r.
    + exists (u_messages u). reflexivity.
  - rewrite exec_step_terminal by (unfold terminal; now rewrite Hs).
    exists []. now rewrite app_nil_r.
  - rewrite exec_step_terminal by (unfold terminal; now rewrite Hs).
    exists []. now rewrite app_nil_r.
Qed.

Lemma invariant_START (input : MessageContent) : invariant limit (START input).
Proof.
  split; simpl; try discriminate. lia.
Qed.

Lemma invariant_step (c : Config) :
  invariant limit c -> invariant limit (exec_step env limit c).
Proof.
  intros Hinv. pose proof Hinv as [Hlog Hbud Hsnd Herr].
  destruct (status c) as [n| |e] eqn:Hs.
  2,3: now rewrite exec_step_terminal by (unfold terminal; now rewrite Hs).
  destruct (exec_step_running c n Hs)
    as [[_ ->]|[(Hlt & _ & ->)|(Hlt & u & Hrun & ->)]].
  - constructor; simpl; [assumption | assumption | discriminate |].
    intros e [= <-]. auto.
  - constructor; simpl; [assumption | lia | discriminate |].
    intros e [= <-]. auto.
  - pose proof (run_node_agent_nonempty env n _ _ u Hlog Hrun) as Hlog'.
    pose proof (run_node_sender env n _ _ u Hrun) as Hsender.
    constructor; simpl.
    + exact Hlog'.
    + lia.
    + destruct (next_target n (apply_update (state c) u)) as [[n'|]|e] eqn:Hn;
        try discriminate.
      intros [= ->]. destruct n; simpl in Hsender.
      * apply next_target_Coordinator in Hn. destruct Hn; discriminate.
      * auto.
      * auto.
      * apply next_target_call_tool in Hn.
        destruct Hn as [[_ ?]|[_ ?]]; discriminate.
    + destruct (next_target n (apply_update (state c) u)) as [[n'|]|e] eqn:Hn;
        try discriminate.
      intros e' [= <-]. apply next_target_throw in Hn; auto.
Qed.

Lemma reachable_invariant (input : MessageContent) (c : Config) :
  reachable env limit input c -> invariant limit c.
Proof.
  induction 1; [apply invariant_START | now apply invariant_step].
Qed.

(** The loop runs configurations of the run only. *)
Lemma exec_loop_reachable (input : MessageContent) (fuel : nat) (c : Config) :
  reachable env limit input c ->
  reachable env limit input (exec_loop env limit fuel c).
Proof.
  revert c. induction fuel as [|fuel IH]; intros c Hc; simpl; [assumption|].
  destruct (terminal c); [assumption|]. apply IH. now constructor.
Qed.

(** Enough fuel for the remaining budget brings the loop to an end. *)
Lemma exec_loop_terminates (fuel : nat) (c : Config) :
  invariant limit c ->
  limit + 1 <= step c + fuel ->
  terminal (exec_loop env limit fuel c) = true.
Proof.
  revert c. induction fuel as [|fuel IH]; intros c Hinv Hfuel; simpl.
  - destruct (status c) as [n| |e] eqn:Hs;
      try (unfold terminal; now rewrite Hs).
    pose proof (inv_budget limit c Hinv). lia.
  - destruct (terminal c) eqn:Ht; [assumption|].
    unfold terminal in Ht. destruct (status c) as [n| |e] eqn:Hs; try discriminate.
    destruct (Nat.le_gt_cases limit (step c)) as [Hl|Hl].
    + rewrite (exec_step_out_of_steps c n Hs Hl).
      destruct fuel; reflexivity.
    + apply IH; [now apply invariant_step|].
      rewrite (exec_step_counter c n Hs Hl). lia.
Qed.

(** More fuel does not change the outcome of a loop that has ended. *)
Lemma exec_loop_stable (fuel : nat) (c : Config) :
  terminal c = true -> exec_loop env limit fuel c = c.
Proof. intros Ht. destruct fuel; simpl; [|rewrite Ht]; reflexivity. Qed.

Lemma exec_loop_step (fuel : nat) (c : Config) (n : Node) :
  status c = Running n ->
  exec_loop env limit (S fuel) c = exec_loop env limit fuel (exec_step env limit c).
Proof. intros Hs. simpl. unfold terminal. now rewrite Hs. Qed.

End Executor.

(** C5 (amended): on every state whose message list is not empty the router
    returns one of the labels [continue], [call_tool] and [end], without
    throwing; when the last message carries no tool call and its content is
    not a string the label is [continue]. No configuration of a run has an
    empty message list, so that the router never throws within a run. *)
Theorem router_total_on_nonempty_log :
  (forall s : AgentState,
      messages s <> [] ->
      exists label,
        router s = Ok label /\ In label ["continue"; "call_tool"; "end"]) /\
  (forall (log : list BaseMessage) (m : BaseMessage) (from : string),
      has_tool_calls m = false ->
      (forall t, content m <> ContentText t) ->
      router {| messages := log ++ [m]; sender := from |} = Ok "continue") /\
  (forall (env : Collaborators) (limit : nat) (input : MessageContent)
          (c : Config),
      reachable env limit input c ->
      messages (state c) <> [] /\ router (state c) <> Throw TypeError).
Proof.
  split; [exact router_total_nonempty|]. split.
  - intros log m from Htc Hcontent. unfold router. simpl.
    rewrite last_element_app, Htc. unfold has_sentinel.
    destruct (content m) as [t| |]; [|reflexivity..].
    now destruct (Hcontent t).
  - intros env limit input c Hreach.
    pose proof (inv_log limit c (reachable_invariant env limit input c Hreach))
      as Hlog.
    split; [exact Hlog|].
    destruct (router_total_nonempty (state c) Hlog) as (label & -> & _).
    discriminate.
Qed.

Lemma router_total_on_nonempty_log_witness :
  let m := {| type_ := ai; content := ContentParts ["FINAL ANSWER"];
              name := None; msg_id := None; tool_calls := Some [] |} in
  router {| messages := [user_message (ContentText "q")] ++ [m];
            sender := "Rag" |} = Ok "continue".
Proof.
  intros m.
  destruct router_total_on_nonempty_log as (_ & Hparts & _).
  apply Hparts; [reflexivity | discriminate].
Defined.

Lemma router_last (log : list BaseMessage) (m : BaseMessage) (from : string) :
  router {| messages := log ++ [m]; sender := from |} =
    if has_tool_calls m then Ok "call_tool"
    else if has_sentinel m then Ok "end" else Ok "continue".
Proof. unfold router. simpl. now rewrite last_element_app. Qed.

(** ** A model that never emits the sentinel *)

Section NeverFinal.

Variable env : Collaborators.
Variable limit : nat.

(** Every completion lacks the sentinel, and those of the coordinator, which
    has no tool, carry no tool call. *)
Hypothesis coordinator_quiet :
  forall k s, exists m,
    coordinatorAgent env k s = Some m /\
    has_tool_calls m = false /\ has_sentinel m = false.
Hypothesis rag_quiet :
  forall k s, exists m, knowledgeAgent env k s = Some m /\ has_sentinel m = false.
Hypothesis tavily_quiet :
  forall k s, exists m, tavilyAgent env k s = Some m /\ has_sentinel m = false.
Hypothesis tools_answer :
  forall k s, exists msgs, toolNode env k s = Some msgs.

(** The router after an agent node whose completion is quiet. *)
Lemma router_after_quiet (s : AgentState) (m : BaseMessage) (agent_name : string) :
  has_sentinel m = false ->
  router (apply_update s
            {| u_messages := [if negb (has_tool_calls m)
                              then HumanMessage m agent_name else m];
               u_sender := Some agent_name |}) =
    if has_tool_calls m then Ok "call_tool" else Ok "continue".
Proof.
  intros Hq. unfold apply_update, messages_reducer. simpl.
  rewrite router_last. destruct (has_tool_calls m) eqn:Htc; simpl.
  - now rewrite Htc.
  - unfold has_tool_calls, has_sentinel in *. simpl. now rewrite Hq.
Qed.

Lemma quiet_step_runs (c : Config) (n : Node) :
  invariant limit c -> status c = Running n -> step c < limit ->
  exists n', status (exec_step env limit c) = Running n'.
Proof.
  intros Hinv Hs Hlt. destruct n.
  - destruct (coordinator_quiet (step c) (state c)) as (m & Hm & Htc & Hq).
    erewrite exec_step_node; [|eassumption..|simpl; unfold runAgentNode; rewrite Hm; reflexivity].
    simpl status. unfold next_target, path.
    rewrite (router_after_quiet _ m "Coordinator" Hq), Htc. simpl. eauto.
  - destruct (rag_quiet (step c) (state c)) as (m & Hm & Hq).
    erewrite exec_step_node; [|eassumption..|simpl; unfold runAgentNode; rewrite Hm; reflexivity].
    simpl status. unfold next_target, path.
    rewrite (router_after_quiet _ m "Rag" Hq).
    destruct (has_tool_calls m); simpl; eauto.
  - destruct (tavily_quiet (step c) (tavily_view (state c))) as (m & Hm & Hq).
    erewrite exec_step_node; [|eassumption..|simpl; unfold runAgentNode; rewrite Hm; reflexivity].
    simpl status. unfold next_target, path.
    rewrite (router_after_quiet _ m "Tavily" Hq).
    destruct (has_tool_calls m); simpl; eauto.
  - destruct (tools_answer (step c) (state c)) as (msgs & Hm).
    erewrite exec_step_node; [|eassumption..|simpl; rewrite Hm; reflexivity].
    simpl status.
    destruct (next_target_call_tool_mapped
                (apply_update (state c) {| u_messages := msgs; u_sender := None |}))
      as (n' & -> & _); [|eauto].
    simpl. apply (inv_sender limit c Hinv Hs).
Qed.

(** With the budget as only way out, the loop ends on the recursion limit,
    after [limit] node invocations. *)
Lemma quiet_loop_out_of_steps (fuel : nat) (c : Config) (n : Node) :
  invariant limit c -> status c = Running n ->
  step c + fuel = limit + 1 ->
  status (exec_loop env limit fuel c) = Failed RecursionLimitExceeded /\
  step (exec_loop env limit fuel c) = limit.
Proof.
  revert c n. induction fuel as [|fuel IH]; intros c n Hinv Hs Hfuel.
  - pose proof (inv_budget limit c Hinv). lia.
  - rewrite (exec_loop_step env limit fuel c n Hs).
    destruct (Nat.le_gt_cases limit (step c)) as [Hl|Hl].
    + rewrite (exec_step_out_of_steps env limit c n Hs Hl).
      rewrite exec_loop_stable by reflexivity. simpl.
      pose proof (inv_budget limit c Hinv). split; [reflexivity | lia].
    + destruct (quiet_step_runs c n Hinv Hs Hl) as [n' Hn'].
      apply (IH _ n'); [now apply invariant_step | assumption |].
      rewrite (exec_step_counter env limit c n Hs Hl). lia.
Qed.

End NeverFinal.

(** ** Runs *)

(** With fuel for the whole budget, [invoke] returns, and it returns the
    final state or one of three errors. *)
Lemma invoke_terminates (env : Collaborators) (limit fuel : nat)
    (input : MessageContent) :
  limit + 1 <= fuel ->
  exists r, invoke env limit fuel input = Some r /\
    ((exists s, r = Ok s) \/ r = Throw RecursionLimitExceeded \/
     r = Throw NodeFailure \/ r = Throw UnknownDestination).
Proof.
  intros Hfuel. unfold invoke.
  pose proof (exec_loop_terminates env limit fuel (START input)
                (invariant_START limit input)) as Hterm.
  pose proof (reachable_invariant env limit input _
                (exec_loop_reachable env limit input fuel _
                   (reach_start env limit input))) as Hinv.
  specialize (Hterm ltac:(simpl; lia)). unfold terminal in Hterm.
  destruct (status (exec_loop env limit fuel (START input))) as [n| |e] eqn:Hs;
    [discriminate | eauto |].
  exists (Throw e). split; [reflexivity|]. right.
  destruct (inv_errors limit _ Hinv e Hs) as [-> | [-> | ->]]; auto.
Qed.

(** The coordinator asks for a tool call: the run stops after one step on a
    label without destination, neither at END nor on the recursion limit. *)
Lemma run_stops_on_unknown_destination :
  run Scenarios.coordinator_calls_tool (ContentText "q")
  = Some (Throw UnknownDestination) /\
  ~ (forall env input,
       (exists s, run env input = Some (Ok s)) \/
       run env input = Some (Throw RecursionLimitExceeded)).
Proof.
  assert (run Scenarios.coordinator_calls_tool (ContentText "q")
          = Some (Throw UnknownDestination)) as H by reflexivity.
  split; [exact H|]. intros Hall.
  destruct (Hall Scenarios.coordinator_calls_tool (ContentText "q"))
    as [[s Hs]|Hr]; rewrite H in *; discriminate.
Qed.

(** C1 (amended): for every question and all responses of the agents and of
    the tool node, a run with recursion limit [limit] ends within
    [limit + 1] executor steps, having invoked at most [limit] nodes: at END,
    on [RecursionLimitExceeded], or on a fatal step error (a rejected
    invocation, or a route label that has no edge out of the current node).
    [run] is such a run with limit 25. If every invocation of an agent
    returns a completion without the sentinel, the completions of the
    coordinator carry no tool call and every invocation of the tool node
    returns, the run ends on [RecursionLimitExceeded] after exactly [limit]
    node invocations. *)
Theorem run_terminates_within_limit :
  forall (env : Collaborators) (limit : nat) (input : MessageContent),
    let c := exec_loop env limit (limit + 1) (START input) in
    terminal c = true /\
    step c <= limit /\
    (exists r, invoke env limit (limit + 1) input = Some r /\
       ((exists s, r = Ok s) \/ r = Throw RecursionLimitExceeded \/
        r = Throw NodeFailure \/ r = Throw UnknownDestination)) /\
    run env input =
      invoke env DEFAULT_RECURSION_LIMIT (DEFAULT_RECURSION_LIMIT + 1) input /\
    DEFAULT_RECURSION_LIMIT = 25 /\
    ((forall k s, exists m, coordinatorAgent env k s = Some m /\
                            has_tool_calls m = false /\ has_sentinel m = false) ->
     (forall k s, exists m, knowledgeAgent env k s = Some m /\
                            has_sentinel m = false) ->
     (forall k s, exists m, tavilyAgent env k s = Some m /\
                            has_sentinel m = false) ->
     (forall k s, exists msgs, toolNode env k s = Some msgs) ->
     invoke env limit (limit + 1) input = Some (Throw RecursionLimitExceeded) /\
     step c = limit).
Proof.
  intros env limit input c.
  pose proof (reachable_invariant env limit input _
                (exec_loop_reachable env limit input (limit + 1) _
                   (reach_start env limit input))) as Hinv.
  split.
  { apply exec_loop_terminates; [apply invariant_START | simpl; lia]. }
  split; [exact (inv_budget limit _ Hinv)|].
  split; [apply invoke_terminates; lia|].
  split; [reflexivity|]. split; [reflexivity|].
  intros Hc Hr Ht Htools.
  destruct (quiet_loop_out_of_steps env limit Hc Hr Ht Htools
              (limit + 1) (START input) Coordinator
              (invariant_START limit input) eq_refl eq_refl) as [Hst Hstep].
  split; [|exact Hstep]. unfold invoke. now rewrite Hst.
Qed.

Lemma run_terminates_within_limit_witness :
  run (Scenarios.chatty "still thinking") (ContentText "q")
  = Some (Throw RecursionLimitExceeded) /\
  step (exec_loop (Scenarios.chatty "still thinking") 25 26
          (START (ContentText "q"))) = 25.
Proof.
  destruct (run_terminates_within_limit (Scenarios.chatty "still thinking")
              25 (ContentText "q")) as (_ & _ & _ & _ & _ & H).
  apply H; intros k s; eexists; simpl; eauto.
Defined.

(** ** The tool node and its edge *)

(** C10: in every run, whenever the executor stands at [call_tool], the
    sender recorded in the state is [Rag] or [Tavily], so that the path map
    of the edge out of [call_tool] has an entry for it. *)
Theorem call_tool_sender_mapped :
  forall (env : Collaborators) (limit : nat) (input : MessageContent)
         (c : Config),
    reachable env limit input c ->
    status c = Running call_tool ->
    (sender (state c) = "Rag" \/ sender (state c) = "Tavily") /\
    exists n, lookup_label (sender (state c)) (path_map call_tool)
              = Some (Goto n).
Proof.
  intros env limit input c Hreach Hs.
  pose proof (inv_sender limit c (reachable_invariant env limit input c Hreach) Hs)
    as Hsender.
  split; [assumption|].
  destruct Hsender as [-> | ->]; simpl; eauto.
Qed.

Lemma call_tool_sender_mapped_witness :
  let env := Scenarios.rag_calls_tool in
  let c := exec_step env 25 (exec_step env 25 (START (ContentText "q"))) in
  status c = Running call_tool /\
  (sender (state c) = "Rag" \/ sender (state c) = "Tavily") /\
  exists n, lookup_label (sender (state c)) (path_map call_tool) = Some (Goto n).
Proof.
  intros env c. split; [reflexivity|].
  apply (call_tool_sender_mapped env 25 (ContentText "q") c).
  - apply reach_step, reach_step, reach_start.
  - reflexivity.
Defined.

(** The node that issues a tool call is Rag or Tavily, and it records its
    own name as sender. *)
Lemma call_tool_issuer (env : Collaborators) (limit : nat) (c : Config) (n : Node) :
  status c = Running n ->
  status (exec_step env limit c) = Running call_tool ->
  (n = Rag \/ n = Tavily) /\
  sender (state (exec_step env limit c)) = node_name n.
Proof.
  intros Hs Hnext.
  destruct (exec_step_running env limit c n Hs)
    as [[_ H]|[(_ & _ & H)|(_ & u & Hrun & H)]];
    rewrite H in Hnext |- *; simpl in *; try discriminate.
  pose proof (run_node_sender env n _ _ u Hrun) as Hsender.
  destruct (next_target n (apply_update (state c) u)) as [[n'|]|e] eqn:Hn;
    try discriminate.
  injection Hnext as ->. destruct n; simpl in Hsender.
  - apply next_target_Coordinator in Hn. destruct Hn; discriminate.
  - auto.
  - auto.
  - apply next_target_call_tool in Hn. destruct Hn as [[_ ?]|[_ ?]]; discriminate.
Qed.

(** C4: from any configuration of a run that stands at [call_tool], once the
    tool node has run the executor stands at the node named by the sender
    recorded in the state, which is Rag or Tavily; the tool node leaves the
    sender as the issuing agent node set it. *)
Theorem call_tool_returns_to_sender :
  forall (env : Collaborators) (limit : nat) (input : MessageContent)
         (c : Config) (msgs : list BaseMessage),
    reachable env limit input c ->
    status c = Running call_tool ->
    step c < limit ->
    toolNode env (step c) (state c) = Some msgs ->
    exists n,
      status (exec_step env limit c) = Running n /\
      node_name n = sender (state c) /\
      (n = Rag \/ n = Tavily) /\
      sender (state (exec_step env limit c)) = sender (state c) /\
      messages (state (exec_step env limit c)) = messages (state c) ++ msgs.
Proof.
  intros env limit input c msgs Hreach Hs Hlt Htool.
  pose proof (inv_sender limit c (reachable_invariant env limit input c Hreach) Hs)
    as Hsender.
  rewrite (exec_step_node env limit c call_tool
             {| u_messages := msgs; u_sender := None |} Hs Hlt)
    by (simpl; now rewrite Htool).
  destruct (next_target_call_tool_mapped
              (apply_update (state c) {| u_messages := msgs; u_sender := None |})
              Hsender) as (n & Hn & Hname & Hcase).
  exists n. simpl. rewrite Hn. auto.
Qed.

Lemma call_tool_returns_to_sender_witness :
  let env := Scenarios.rag_calls_tool in
  let c := exec_step env 25 (exec_step env 25 (START (ContentText "q"))) in
  sender (state c) = "Rag" /\
  exists n,
    status (exec_step env 25 c) = Running n /\
    node_name n = sender (state c) /\
    (n = Rag \/ n = Tavily) /\
    sender (state (exec_step env 25 c)) = sender (state c) /\
    messages (state (exec_step env 25 c))
    = messages (state c) ++ [Scenarios.tool_result "rag_search" "{}"].
Proof.
  intros env c. split; [reflexivity|].
  apply (call_tool_returns_to_sender env 25 (ContentText "q") c).
  - apply reach_step, reach_step, reach_start.
  - reflexivity.
  - simpl. lia.
  - reflexivity.
Defined.

(** ** The entry point *)




(** ** The canonical log is never mutated *)

(** Allocation returns a reference that was free and leaves every array of
    the store as it was. *)
Lemma alloc_spec (h h' : gmap nat (list BaseMessage)) (xs : list BaseMessage)
    (r : nat) :
  Heap.alloc h xs = (h', r) ->
  h !! r = None /\ h' !! r = Some xs /\
  forall l ys, h !! l = Some ys -> h' !! l = Some ys.
Proof.
  unfold Heap.alloc. intros [= <- <-].
  pose proof (is_fresh (dom h)) as Hfresh.
  apply not_elem_of_dom in Hfresh.
  split; [exact Hfresh|]. split; [apply lookup_insert_eq|].
  intros l ys Hl. rewrite lookup_insert_ne; [assumption|].
  intros Heq. rewrite Heq in Hfresh. congruence.
Qed.

Lemma array_concat_spec (h h' : gmap nat (list BaseMessage)) (x y r : nat) :
  Heap.array_concat h x y = Some (h', r) ->
  exists xs ys,
    h !! x = Some xs /\ h !! y = Some ys /\
    h !! r = None /\ h' !! r = Some (xs ++ ys) /\
    forall l zs, h !! l = Some zs -> h' !! l = Some zs.
Proof.
  unfold Heap.array_concat.
  destruct (h !! x) as [xs|] eqn:Hx; [|discriminate].
  destruct (h !! y) as [ys|] eqn:Hy; [|discriminate].
  intros Heq. exists xs, ys.
  assert (Heap.alloc h (xs ++ ys) = (h', r)) as Ha by congruence.
  apply alloc_spec in Ha. tauto.
Qed.

Lemma array_filter_spec (p : BaseMessage -> bool)
    (h h' : gmap nat (list BaseMessage)) (x r : nat) :
  Heap.array_filter p h x = Some (h', r) ->
  exists xs,
    h !! x = Some xs /\
    h !! r = None /\ h' !! r = Some (List.filter p xs) /\
    forall l zs, h !! l = Some zs -> h' !! l = Some zs.
Proof.
  unfold Heap.array_filter.
  destruct (h !! x) as [xs|] eqn:Hx; [|discriminate].
  intros Heq. exists xs.
  assert (Heap.alloc h (List.filter p xs) = (h', r)) as Ha by congruence.
  apply alloc_spec in Ha. tauto.
Qed.

(** The log of a run starts with the question and only grows. *)
Lemma reachable_log_grows (env : Collaborators) (limit : nat)
    (input : MessageContent) (c : Config) :
  reachable env limit input c ->
  exists ys, messages (state c) = [user_message input] ++ ys.
Proof.
  induction 1 as [|c Hc [ys IH]].
  - exists []. reflexivity.
  - destruct (exec_step_extends env limit c) as [zs Hzs].
    exists (ys ++ zs). rewrite Hzs, IH. now rewrite <- app_assoc.
Qed.

(** C7: an executor step leaves the log it started from as a prefix of the
    log it produces, so that the log of a run is only ever extended. On
    arrays as heap objects, the reducer of [messages] and the filter of the
    Tavily node write their result to a reference that was free, and leave
    every array of the store, the canonical log included, as it was; the
    new arrays hold the concatenation and the filtered log. *)
Theorem canonical_log_not_mutated :
  (forall (env : Collaborators) (limit : nat) (c : Config),
      exists ys,
        messages (state (exec_step env limit c)) = messages (state c) ++ ys) /\
  (forall (env : Collaborators) (limit : nat) (input : MessageContent)
          (c : Config),
      reachable env limit input c ->
      exists ys, messages (state c) = [user_message input] ++ ys) /\
  (forall (h h' : gmap nat (list BaseMessage)) (x y r : nat),
      Heap.messages_reducer_ref h x y = Some (h', r) ->
      r <> x /\ r <> y /\
      (forall l zs, h !! l = Some zs -> h' !! l = Some zs) /\
      exists xs ys,
        h !! x = Some xs /\ h !! y = Some ys /\
        h' !! r = Some (messages_reducer xs ys)) /\
  (forall (h h' : gmap nat (list BaseMessage)) (s s' : Heap.StateRef),
      Heap.tavily_view_ref h s = Some (h', s') ->
      Heap.messages_ref s' <> Heap.messages_ref s /\
      (forall l zs, h !! l = Some zs -> h' !! l = Some zs) /\
      exists st,
        Heap.deref h s = Some st /\
        Heap.deref h' s = Some st /\
        Heap.deref h' s' = Some (tavily_view st)).
Proof.
  split; [intros; apply exec_step_extends|].
  split; [intros; eapply reachable_log_grows; eassumption|].
  split.
  - intros h h' x y r Hred. unfold Heap.messages_reducer_ref in Hred.
    apply array_concat_spec in Hred.
    destruct Hred as (xs & ys & Hx & Hy & Hr & Hr' & Hold).
    split; [intros ->; congruence|]. split; [intros ->; congruence|].
    split; [exact Hold|]. exists xs, ys. auto.
  - intros h h' s s' Hview. unfold Heap.tavily_view_ref in Hview.
    destruct (Heap.array_filter tavily_keep h (Heap.messages_ref s))
      as [[h1 r]|] eqn:Hf; [|discriminate].
    injection Hview as <- <-.
    apply array_filter_spec in Hf.
    destruct Hf as (xs & Hx & Hr & Hr' & Hold). simpl.
    split; [intros ->; congruence|]. split; [exact Hold|].
    exists {| messages := xs; sender := Heap.sender_val s |}.
    unfold Heap.deref. simpl. rewrite Hx, (Hold _ _ Hx), Hr'. auto.
Qed.

Lemma canonical_log_not_mutated_witness :
  let log := [user_message (ContentText "q");
              HumanMessage (Scenarios.text_reply "from the base") "Rag"] in
  let h : gmap nat (list BaseMessage) := <[0:=log]> (<[1:=[]]> empty) in
  let s := {| Heap.messages_ref := 0; Heap.sender_val := "Rag" |} in
  exists h' s',
    Heap.tavily_view_ref h s = Some (h', s') /\
    Heap.messages_ref s' <> 0 /\
    h' !! 0 = Some log /\
    Heap.deref h' s' = Some {| messages := [user_message (ContentText "q")];
                               sender := "Rag" |}.
Proof.
  intros log h s.
  destruct (Heap.tavily_view_ref h s) as [[h' s']|] eqn:Hview;
    [|vm_compute in Hview; discriminate].
  exists h', s'. split; [reflexivity|].
  destruct canonical_log_not_mutated as (_ & _ & _ & Hfilter).
  destruct (Hfilter h h' s s' Hview) as (Hfresh & Hold & st & Hs & _ & Hs').
  split; [exact Hfresh|]. split.
  - apply Hold. reflexivity.
  - assert (Heap.deref h s = Some {| messages := log; sender := "Rag" |}) as Hd
      by reflexivity.
    rewrite Hd in Hs. injection Hs as <-. rewrite Hs'. reflexivity.
Defined.

(** ** Knowledge search *)

Lemma is_empty_false (s : JsString) : s <> [] -> is_empty s = false.
Proof. destruct s; [congruence | reflexivity]. Qed.

Lemma trim_nonempty (s : JsString) : trim s <> [] -> s <> [].
Proof. intros H ->. now apply H. Qed.




(** * Further properties of the state graph *)

(** ** Sentinel detection *)

Lemma prefix_iff (a b : string) :
  String.prefix a b = true <-> exists c, b = (a ++ c)%string.
Proof.
  revert b. induction a as [|x a IH]; intros b; destruct b as [|y b]; simpl.
  - split; [intros _; now exists "" | reflexivity].
  - split; [intros _; now exists (String y b) | reflexivity].
  - split; [discriminate | intros [c Hc]; discriminate].
  - destruct (ascii_dec x y) as [->|Hne].
    + rewrite IH. split; intros [c Hc]; exists c;
        [now rewrite Hc | now injection Hc].
    + split; [discriminate | intros [c Hc]; injection Hc as Hxy _; now subst].
Qed.

Lemma includes_unfold (hay needle : string) :
  includes hay needle =
    if String.prefix needle hay then true
    else match hay with
         | EmptyString => false
         | String _ rest => includes rest needle
         end.
Proof. destruct hay; reflexivity. Qed.

(** [includes] finds the needle wherever it occurs. *)
Lemma includes_iff (hay needle : string) :
  includes hay needle = true <->
  exists pre post, hay = (pre ++ needle ++ post)%string.
Proof.
  induction hay as [|c rest IH]; rewrite includes_unfold.
  - destruct (String.prefix needle "") eqn:Hp.
    + apply prefix_iff in Hp. destruct Hp as [post Hpost].
      split; [intros _; now exists "", post | reflexivity].
    + split; [discriminate|]. intros (pre & post & H).
      destruct pre; [|discriminate]. simpl in H.
      assert (String.prefix needle "" = true) by (apply prefix_iff; eauto).
      congruence.
  - destruct (String.prefix needle (String c rest)) eqn:Hp.
    + apply prefix_iff in Hp. destruct Hp as [post Hpost].
      split; [intros _; now exists "", post | reflexivity].
    + rewrite IH. split.
      * intros (pre & post & ->). now exists (String c pre), post.
      * intros (pre & post & H). destruct pre as [|c' pre].
        -- simpl in H.
           assert (String.prefix needle (String c rest) = true)
             by (apply prefix_iff; eauto).
           congruence.
        -- simpl in H. injection H as -> ->. eauto.
Qed.

Lemma has_sentinel_iff (m : BaseMessage) :
  has_sentinel m = true <->
  exists pre post,
    content m = ContentText (pre ++ "FINAL ANSWER" ++ post)%string.
Proof.
  unfold has_sentinel. destruct (content m) as [t|parts|].
  - rewrite includes_iff. split; intros (pre & post & H); exists pre, post; congruence.
  - split; [discriminate | intros (pre & post & H); discriminate].
  - split; [discriminate | intros (pre & post & H); discriminate].
Qed.

(** ** Router and edges *)

(** X1: on a log that ends with message [m], the label of the router is
    decided by [m] alone: [call_tool] exactly when [m] carries a tool call;
    [end] exactly when it carries none and its content is a string in which
    the text FINAL ANSWER occurs somewhere; [continue] exactly in the
    remaining case. *)
Theorem router_decided_by_last_message :
  forall (log : list BaseMessage) (m : BaseMessage) (from : string),
    let s := {| messages := log ++ [m]; sender := from |} in
    (router s = Ok "call_tool" <-> has_tool_calls m = true) /\
    (router s = Ok "end" <->
       has_tool_calls m = false /\
       exists pre post,
         content m = ContentText (pre ++ "FINAL ANSWER" ++ post)%string) /\
    (router s = Ok "continue" <->
       has_tool_calls m = false /\
       ~ exists pre post,
           content m = ContentText (pre ++ "FINAL ANSWER" ++ post)%string).
Proof.
  intros log m from s. unfold s. rewrite router_last.
  rewrite <- has_sentinel_iff.
  destruct (has_tool_calls m), (has_sentinel m);
    repeat split; try discriminate; try tauto; try congruence;
    intros [? ?]; try discriminate; congruence.
Qed.

(** X2: the edge followed out of each node on a log that ends with [m]:
    the coordinator goes to END on the sentinel, to Rag otherwise, and has no
    destination for a tool call; Rag and Tavily go to [call_tool] on a tool
    call, on to Tavily and to Coordinator otherwise, and have no destination
    for the sentinel; [call_tool] goes to the node named by the sender, if
    that is Tavily or Rag. *)
Theorem edge_followed :
  forall (n : Node) (log : list BaseMessage) (m : BaseMessage) (from : string),
    next_target n {| messages := log ++ [m]; sender := from |} =
      match n with
      | Coordinator =>
          if has_tool_calls m then Throw UnknownDestination
          else if has_sentinel m then Ok END else Ok (Goto Rag)
      | Rag =>
          if has_tool_calls m then Ok (Goto call_tool)
          else if has_sentinel m then Throw UnknownDestination
               else Ok (Goto Tavily)
      | Tavily =>
          if has_tool_calls m then Ok (Goto call_tool)
          else if has_sentinel m then Throw UnknownDestination
               else Ok (Goto Coordinator)
      | call_tool =>
          if String.eqb from "Tavily" then Ok (Goto Tavily)
          else if String.eqb from "Rag" then Ok (Goto Rag)
               else Throw UnknownDestination
      end.
Proof.
  intros n log m from. unfold next_target, path.
  destruct n; try rewrite router_last;
    try (destruct (has_tool_calls m), (has_sentinel m); reflexivity).
  unfold bind, path_map, lookup_label.
  rewrite (String.eqb_sym "Tavily"), (String.eqb_sym "Rag").
  change (sender {| messages := log ++ [m]; sender := from |}) with from.
  destruct (String.eqb from "Tavily"); [reflexivity|].
  destruct (String.eqb from "Rag"); reflexivity.
Qed.

(** X3: following an edge fails, and then with an unknown destination,
    exactly when the coordinator asked for a tool call, when Rag or Tavily
    gave the sentinel in a message without tool call, or when [call_tool] is
    left with a sender other than Rag and Tavily. *)
Theorem edge_without_destination :
  forall (n : Node) (log : list BaseMessage) (m : BaseMessage) (from : string)
         (e : Exn),
    next_target n {| messages := log ++ [m]; sender := from |} = Throw e <->
    e = UnknownDestination /\
    ((n = Coordinator /\ has_tool_calls m = true) \/
     ((n = Rag \/ n = Tavily) /\
      has_tool_calls m = false /\ has_sentinel m = true) \/
     (n = call_tool /\ from <> "Rag" /\ from <> "Tavily")).
Proof.
  intros n log m from e. rewrite edge_followed.
  destruct n.
  - destruct (has_tool_calls m), (has_sentinel m); split; intros H;
      try discriminate; try (injection H as <-);
      intuition (try discriminate; try congruence).
  - destruct (has_tool_calls m), (has_sentinel m); split; intros H;
      try discriminate; try (injection H as <-);
      intuition (try discriminate; try congruence).
  - destruct (has_tool_calls m), (has_sentinel m); split; intros H;
      try discriminate; try (injection H as <-);
      intuition (try discriminate; try congruence).
  - destruct (String.eqb_spec from "Tavily") as [->|Ht].
    + split; intros H; [discriminate|].
      intuition (try discriminate; try congruence).
    + destruct (String.eqb_spec from "Rag") as [->|Hr].
      * split; intros H; [discriminate|].
        intuition (try discriminate; try congruence).
      * split; intros H.
        -- injection H as <-. split; [reflexivity | right; right; auto].
        -- destruct H as [-> _]. reflexivity.
Qed.

(** ** The Tavily view *)

(** X4: the Tavily view holds exactly the messages of the log that either
    carry tool calls none of which is to [rag_search], or carry no tool call
    and are named neither [Rag] nor [rag_search]; nothing else is removed. *)
Theorem tavily_view_exact :
  forall (s : AgentState) (m : BaseMessage),
    In m (messages (tavily_view s)) <->
    In m (messages s) /\
    ((has_tool_calls m = true /\
      forall cs c, tool_calls m = Some cs -> In c cs ->
                   tc_name c <> "rag_search") \/
     (has_tool_calls m = false /\
      name m <> Some "Rag" /\ name m <> Some "rag_search")).
Proof.
  intros s m. unfold tavily_view. simpl. rewrite filter_In.
  apply and_iff_compat_l.
  destruct (has_tool_calls m) eqn:Htc.
  - unfold has_tool_calls in Htc.
    destruct (tool_calls m) as [[|c0 cs0]|] eqn:Hcalls; try discriminate.
    rewrite (tavily_keep_tool_calls m c0 cs0 Hcalls), negb_true_iff.
    split.
    + intros Hnone. left. split; [reflexivity|].
      intros cs c [= <-] Hc Hname.
      assert (existsb (fun t => String.eqb (tc_name t) "rag_search") (c0 :: cs0)
              = true) as Hex; [|congruence].
      apply existsb_exists. exists c. split; [assumption|].
      rewrite Hname. apply String.eqb_refl.
    + intros [[_ Hall]|[Hno _]]; [|discriminate].
      destruct (existsb _ (c0 :: cs0)) eqn:Hex; [|reflexivity].
      apply existsb_exists in Hex. destruct Hex as (c & Hc & Hname).
      apply String.eqb_eq in Hname. now destruct (Hall _ c eq_refl Hc).
  - rewrite (tavily_keep_plain m Htc), negb_true_iff.
    split.
    + intros Hinc. right. split; [reflexivity|].
      split; intros Hn; rewrite Hn in Hinc;
        rewrite array_includes_hit in Hinc; simpl; auto; discriminate.
    + intros [[Hyes _]|(_ & Hrag & Htool)]; [discriminate|].
      unfold array_includes. destruct (name m) as [nm|]; [|reflexivity].
      simpl. rewrite orb_false_r.
      destruct (String.eqb_spec nm "Rag") as [->|_]; [congruence|].
      destruct (String.eqb_spec nm "rag_search") as [->|_]; [congruence|].
      reflexivity.
Qed.

(** X5: in every configuration of a run the Tavily view starts with the
    question of the user: the filter never hides it. *)
Theorem tavily_view_keeps_question :
  forall (env : Collaborators) (limit : nat) (input : MessageContent)
         (c : Config),
    reachable env limit input c ->
    exists rest,
      messages (tavily_view (state c)) = user_message input :: rest.
Proof.
  intros env limit input c Hreach.
  destruct (reachable_log_grows env limit input c Hreach) as [ys Hlog].
  unfold tavily_view. simpl. rewrite Hlog. simpl. eauto.
Qed.

Lemma tavily_view_keeps_question_witness :
  let env := Scenarios.rag_calls_tool in
  let c := exec_step env 25
             (exec_step env 25 (exec_step env 25 (START (ContentText "q")))) in
  exists rest,
    messages (tavily_view (state c)) = user_message (ContentText "q") :: rest.
Proof.
  intros env c.
  apply (tavily_view_keeps_question env 25 (ContentText "q") c).
  apply reach_step, reach_step, reach_step, reach_start.
Defined.

(** ** Agent nodes and reducers *)

Lemma retagged_shape (result : BaseMessage) (agent_name : string) :
  let m := if negb (has_tool_calls result)
           then HumanMessage result agent_name else result in
  has_tool_calls m = has_tool_calls result /\
  has_sentinel m = has_sentinel result /\
  content m = content result /\
  (has_tool_calls result = true -> m = result) /\
  (has_tool_calls result = false ->
   type_ m = human /\ name m = Some agent_name).
Proof.
  destruct (has_tool_calls result) eqn:Htc; simpl.
  - rewrite Htc. repeat split; auto; discriminate.
  - repeat split; auto; discriminate.
Qed.

Lemma apply_agent_update (s : AgentState) (m : BaseMessage) (agent_name : string) :
  apply_update s {| u_messages := [m]; u_sender := Some agent_name |}
  = {| messages := messages s ++ [m]; sender := agent_name |}.
Proof. reflexivity. Qed.

(** X6: whatever the completion of the agent is, the node returns exactly
    one message with the content of the completion and its own name as
    sender; a completion with tool calls is passed on untouched; and the
    router then answers [call_tool] if the completion carries a tool call,
    else [end] if its content holds the sentinel, else [continue]. *)
Theorem route_after_agent_node :
  forall (agent : AgentState -> option BaseMessage) (s : AgentState)
         (agent_name : string) (result : BaseMessage),
    agent s = Some result ->
    exists m,
      runAgentNode agent s agent_name
      = Some {| u_messages := [m]; u_sender := Some agent_name |} /\
      content m = content result /\
      (has_tool_calls result = true -> m = result) /\
      router (apply_update s {| u_messages := [m]; u_sender := Some agent_name |})
      = if has_tool_calls result then Ok "call_tool"
        else if has_sentinel result then Ok "end" else Ok "continue".
Proof.
  intros agent s agent_name result Hres.
  unfold runAgentNode. rewrite Hres.
  destruct (retagged_shape result agent_name) as (Htc & Hsen & Hc & Hsame & _).
  eexists. split; [reflexivity|]. split; [exact Hc|]. split; [exact Hsame|].
  rewrite apply_agent_update, router_last, Htc, Hsen. reflexivity.
Qed.

Lemma route_after_agent_node_witness :
  let s := {| messages := [user_message (ContentText "q")]; sender := "user" |} in
  let reply := Scenarios.tool_call_reply "rag_search" "q" in
  exists m,
    runAgentNode (fun _ => Some reply) s "Rag"
    = Some {| u_messages := [m]; u_sender := Some "Rag" |} /\
    m = reply /\
    router (apply_update s {| u_messages := [m]; u_sender := Some "Rag" |})
    = Ok "call_tool".
Proof.
  intros s reply.
  destruct (route_after_agent_node (fun _ => Some reply) s "Rag" reply eq_refl)
    as (m & Hrun & _ & Hsame & Hroute).
  exists m. split; [exact Hrun|]. split; [now apply Hsame | exact Hroute].
Defined.

(** X7: folding two partial states one after the other is folding their
    combination, in which the messages are concatenated in order and the
    later defined sender wins; the partial state without message and sender
    changes nothing. *)
Theorem apply_update_composes :
  (forall (s : AgentState) (u1 u2 : Update),
      apply_update (apply_update s u1) u2 = apply_update s (then_update u1 u2)) /\
  (forall s : AgentState,
      apply_update s {| u_messages := []; u_sender := None |} = s) /\
  (forall u1 u2 u3 : Update,
      then_update (then_update u1 u2) u3 = then_update u1 (then_update u2 u3)).
Proof.
  split; [|split].
  - intros s u1 u2. unfold apply_update, then_update, messages_reducer. simpl.
    rewrite app_assoc.
    destruct (u_sender u2), (u_sender u1); reflexivity.
  - intros [ms from]. unfold apply_update, messages_reducer. simpl.
    now rewrite app_nil_r.
  - intros u1 u2 u3. unfold then_update. simpl. rewrite app_assoc.
    destruct (u_sender u3), (u_sender u2); reflexivity.
Qed.

(** ** What a finished run shows *)

Lemma run_node_agent_message (env : Collaborators) (n : Node) (k : nat)
    (s : AgentState) (u : Update) :
  n <> call_tool ->
  run_node env n k s = Some u ->
  exists m,
    u = {| u_messages := [m]; u_sender := Some (node_name n) |} /\
    (has_tool_calls m = false ->
     type_ m = human /\ name m = Some (node_name n)).
Proof.
  intros Hn Hrun.
  assert (exists result,
             u = {| u_messages :=
                      [if negb (has_tool_calls result)
                       then HumanMessage result (node_name n) else result];
                    u_sender := Some (node_name n) |}) as [result ->].
  { destruct n; try congruence; simpl in Hrun; unfold runAgentNode in Hrun;
      match type of Hrun with
      | match ?a with _ => _ end = _ => destruct a as [result|]
      end; try discriminate; injection Hrun as <-; eauto. }
  eexists. split; [reflexivity|].
  destruct (retagged_shape result (node_name n)) as (Htc & _ & _ & _ & Hshape).
  intros Hno. apply Hshape. now rewrite <- Htc.
Qed.

Lemma answered_app (who : string) (log more : list BaseMessage) :
  answered who log -> answered who (log ++ more).
Proof.
  intros (m & Hin & Hm). exists m. split; [|exact Hm].
  apply in_or_app. now left.
Qed.

Lemma answered_last (who : string) (log : list BaseMessage) (m : BaseMessage) :
  type_ m = human -> name m = Some who -> answered who (log ++ [m]).
Proof.
  intros Ht Hn. exists m. split; [|auto].
  apply in_or_app. right. now left.
Qed.

Section FinishedRuns.

Variable env : Collaborators.
Variable limit : nat.
Variable input : MessageContent.

(** A run is finished by a final answer of the coordinator only. *)
Lemma reachable_finished (c : Config) :
  reachable env limit input c ->
  status c = Finished ->
  exists log m,
    messages (state c) = log ++ [m] /\
    type_ m = human /\ name m = Some "Coordinator" /\
    has_tool_calls m = false /\ has_sentinel m = true /\
    sender (state c) = "Coordinator".
Proof.
  induction 1 as [|c Hreach IH]; [discriminate|].
  destruct (status c) as [n| |e] eqn:Hs.
  - destruct (exec_step_running env limit c n Hs)
      as [[_ ->]|[(_ & _ & ->)|(_ & u & Hrun & ->)]]; try discriminate.
    simpl. intros Hfin.
    destruct n.
    + apply run_node_agent_message in Hrun; [|discriminate].
      destruct Hrun as (m & -> & Hshape).
      rewrite apply_agent_update in *. simpl node_name in *.
      rewrite edge_followed in Hfin.
      destruct (has_tool_calls m) eqn:Htc; [discriminate|].
      destruct (has_sentinel m) eqn:Hsen; [|discriminate].
      destruct (Hshape eq_refl) as [Htype Hname].
      exists (messages (state c)), m. simpl. auto 10.
    + apply run_node_agent_message in Hrun; [|discriminate].
      destruct Hrun as (m & -> & _).
      rewrite apply_agent_update, edge_followed in Hfin.
      destruct (has_tool_calls m), (has_sentinel m); simpl in Hfin; discriminate.
    + apply run_node_agent_message in Hrun; [|discriminate].
      destruct Hrun as (m & -> & _).
      rewrite apply_agent_update, edge_followed in Hfin.
      destruct (has_tool_calls m), (has_sentinel m); simpl in Hfin; discriminate.
    + destruct (next_target call_tool (apply_update (state c) u))
        as [[n'|]|e] eqn:Hn; try discriminate.
      apply next_target_call_tool in Hn.
      destruct Hn as [[_ ?]|[_ ?]]; discriminate.
  - rewrite exec_step_terminal by (unfold terminal; now rewrite Hs). auto.
  - rewrite exec_step_terminal by (unfold terminal; now rewrite Hs).
    rewrite Hs. discriminate.
Qed.

(** Which specialists have answered, by position in the graph. *)
Lemma reachable_specialists (c : Config) :
  reachable env limit input c ->
  match status c with
  | Running Coordinator =>
      messages (state c) = [user_message input] \/
      (answered "Rag" (messages (state c)) /\
       answered "Tavily" (messages (state c)))
  | Running Tavily => answered "Rag" (messages (state c))
  | Running call_tool =>
      sender (state c) = "Tavily" -> answered "Rag" (messages (state c))
  | Finished =>
      (exists m, messages (state c) = [user_message input; m]) \/
      (answered "Rag" (messages (state c)) /\
       answered "Tavily" (messages (state c)))
  | _ => True
  end.
Proof.
  induction 1 as [|c Hreach IH]; [simpl; auto|].
  destruct (status c) as [n| |e] eqn:Hs.
  2,3: rewrite exec_step_terminal by (unfold terminal; now rewrite Hs);
       now rewrite Hs.
  destruct (exec_step_running env limit c n Hs)
    as [[_ ->]|[(_ & _ & ->)|(_ & u & Hrun & ->)]]; simpl; trivial.
  destruct n.
  - apply run_node_agent_message in Hrun; [|discriminate].
    destruct Hrun as (m & -> & Hshape).
    rewrite apply_agent_update, edge_followed. simpl.
    destruct (has_tool_calls m); [exact I|].
    destruct (has_sentinel m); [|exact I].
    destruct IH as [Hseed|[Hr Ht]].
    + left. exists m. now rewrite Hseed.
    + right. split; now apply answered_app.
  - apply run_node_agent_message in Hrun; [|discriminate].
    destruct Hrun as (m & -> & Hshape).
    rewrite apply_agent_update, edge_followed. simpl.
    destruct (has_tool_calls m); [discriminate|].
    destruct (has_sentinel m); [exact I|].
    destruct (Hshape eq_refl) as [Htype Hname]. now apply answered_last.
  - apply run_node_agent_message in Hrun; [|discriminate].
    destruct Hrun as (m & -> & Hshape).
    rewrite apply_agent_update, edge_followed. simpl.
    destruct (has_tool_calls m); [intros _; now apply answered_app|].
    destruct (has_sentinel m); [exact I|].
    destruct (Hshape eq_refl) as [Htype Hname].
    right. split; [now apply answered_app | now apply answered_last].
  - apply run_node_call_tool_update in Hrun. destruct Hrun as (msgs & _ & ->).
    destruct (next_target call_tool
                (apply_update (state c) {| u_messages := msgs; u_sender := None |}))
      as [[n'|]|e] eqn:Hn; trivial.
    + apply next_target_call_tool in Hn. simpl in Hn.
      destruct Hn as [[Hsender [= ->]]|[_ [= ->]]]; [|exact I].
      unfold messages_reducer. apply answered_app. now apply IH.
    + apply next_target_call_tool in Hn.
      destruct Hn as [[_ ?]|[_ ?]]; discriminate.
Qed.

End FinishedRuns.

(** The final state of a successful run is a finished configuration of it. *)
Lemma run_ok_reachable (env : Collaborators) (input : MessageContent)
    (s : AgentState) :
  run env input = Some (Ok s) ->
  exists c, reachable env DEFAULT_RECURSION_LIMIT input c /\
            status c = Finished /\ state c = s.
Proof.
  unfold run, invoke. intros Hrun.
  exists (exec_loop env DEFAULT_RECURSION_LIMIT (DEFAULT_RECURSION_LIMIT + 1)
            (START input)).
  split; [apply exec_loop_reachable, reach_start|].
  destruct (status (exec_loop env DEFAULT_RECURSION_LIMIT
                      (DEFAULT_RECURSION_LIMIT + 1) (START input)));
    try discriminate. split; [reflexivity | congruence].
Qed.

(** X8: the state a successful run returns holds the question first and,
    last, a human message named Coordinator without tool call whose content
    holds the sentinel; the sender it records is the coordinator. *)
Theorem run_ends_with_final_answer :
  forall (env : Collaborators) (input : MessageContent) (s : AgentState),
    run env input = Some (Ok s) ->
    exists log m,
      messages s = user_message input :: log ++ [m] /\
      type_ m = human /\ name m = Some "Coordinator" /\
      has_tool_calls m = false /\
      (exists pre post,
          content m = ContentText (pre ++ "FINAL ANSWER" ++ post)%string) /\
      sender s = "Coordinator".
Proof.
  intros env input s Hrun.
  destruct (run_ok_reachable env input s Hrun) as (c & Hreach & Hfin & <-).
  destruct (reachable_finished env _ input c Hreach Hfin)
    as (log & m & Hlog & Htype & Hname & Htc & Hsen & Hsender).
  destruct (reachable_log_grows env _ input c Hreach) as [ys Hys].
  destruct ys as [|y ys _] using rev_ind.
  - rewrite Hys in Hlog. simpl in Hlog.
    destruct log as [|x log]; simpl in Hlog.
    + injection Hlog as <-. discriminate.
    + injection Hlog as _ Hnil. now destruct log.
  - rewrite Hys in Hlog. simpl in Hlog.
    change (user_message input :: ys ++ [y])
      with ((user_message input :: ys) ++ [y]) in Hlog.
    apply app_inj_tail in Hlog. destruct Hlog as [_ ->].
    exists ys, m. rewrite Hys. split; [reflexivity|].
    apply has_sentinel_iff in Hsen. auto 10.
Qed.

Lemma run_ends_with_final_answer_witness :
  exists s log m,
    run Examples.one_cycle (ContentText "q") = Some (Ok s) /\
    messages s = user_message (ContentText "q") :: log ++ [m] /\
    name m = Some "Coordinator" /\
    sender s = "Coordinator".
Proof.
  destruct (run Examples.one_cycle (ContentText "q")) as [[s|e]|] eqn:Hrun;
    [|vm_compute in Hrun; discriminate..].
  destruct (run_ends_with_final_answer Examples.one_cycle (ContentText "q") s Hrun)
    as (log & m & Hlog & _ & Hname & _ & _ & Hsender).
  exists s, log, m. auto.
Defined.

(** X9: the entry point answers with a text that holds the sentinel, or
    fails on the recursion limit, on a rejected invocation or on a label
    without destination; reading the content of the last message of the
    final state never fails. *)
Theorem controller_run_outcomes :
  forall (env : Collaborators) (question : option string),
    exists r,
      controller_run env question = Some r /\
      ((exists pre post,
           r = Ok (ContentText (pre ++ "FINAL ANSWER" ++ post)%string)) \/
       r = Throw RecursionLimitExceeded \/
       r = Throw NodeFailure \/
       r = Throw UnknownDestination).
Proof.
  intros env question. unfold controller_run.
  destruct (invoke_terminates env DEFAULT_RECURSION_LIMIT
              (DEFAULT_RECURSION_LIMIT + 1) (body_question question)
              (Nat.le_refl _)) as (r & Hr & Hcase).
  change (invoke env DEFAULT_RECURSION_LIMIT (DEFAULT_RECURSION_LIMIT + 1)
            (body_question question))
    with (run env (body_question question)) in Hr.
  rewrite Hr.
  destruct Hcase as [[s ->] | [-> | [-> | ->]]]; eauto 6.
  destruct (run_ok_reachable env _ s Hr) as (c & Hreach & Hfin & <-).
  destruct (reachable_finished env _ _ c Hreach Hfin)
    as (log & m & Hlog & _ & _ & _ & Hsen & _).
  rewrite Hlog, last_element_app.
  apply has_sentinel_iff in Hsen. destruct Hsen as (pre & post & ->).
  eexists. split; [reflexivity|]. left. eauto.
Qed.

(** X10: when a run succeeds, either the coordinator concluded at its very
    first turn, the log being the question and its answer, or the log holds
    a final answer of Rag and a final answer of Tavily. *)
Theorem run_success_after_both_specialists :
  forall (env : Collaborators) (input : MessageContent) (s : AgentState),
    run env input = Some (Ok s) ->
    (exists m, messages s = [user_message input; m]) \/
    (answered "Rag" (messages s) /\ answered "Tavily" (messages s)).
Proof.
  intros env input s Hrun.
  destruct (run_ok_reachable env input s Hrun) as (c & Hreach & Hfin & <-).
  pose proof (reachable_specialists env _ input c Hreach) as H.
  now rewrite Hfin in H.
Qed.

Lemma run_success_after_both_specialists_witness :
  exists s,
    run Examples.one_cycle (ContentText "q") = Some (Ok s) /\
    ((exists m, messages s = [user_message (ContentText "q"); m]) \/
     (answered "Rag" (messages s) /\ answered "Tavily" (messages s))).
Proof.
  destruct (run Examples.one_cycle (ContentText "q")) as [[s|e]|] eqn:Hrun;
    [|vm_compute in Hrun; discriminate..].
  exists s. split; [reflexivity|].
  exact (run_success_after_both_specialists Examples.one_cycle
           (ContentText "q") s Hrun).
Defined.

(** * Further properties of the knowledge service *)

(** ** Blank queries *)

Lemma trimStart_blank (s : JsString) :
  trimStart s = [] <-> forallb is_white_space s = true.
Proof.
  induction s as [|c s IH]; simpl.
  - tauto.
  - destruct (is_white_space c); simpl; [exact IH|].
    split; discriminate.
Qed.

Lemma trimStart_head (s : JsString) :
  trimStart s = [] \/
  exists c rest, trimStart s = c :: rest /\ is_white_space c = false.
Proof.
  induction s as [|c s IH]; simpl; [now left|].
  destruct (is_white_space c) eqn:Hc; [exact IH|].
  right. eauto.
Qed.

Lemma rev_empty {A} (l : list A) : rev l = [] -> l = [].
Proof.
  intros H. apply (f_equal (@rev A)) in H. now rewrite rev_involutive in H.
Qed.

Lemma forallb_rev {A} (p : A -> bool) (l : list A) :
  forallb p (rev l) = forallb p l.
Proof.
  induction l as [|x l IH]; simpl; [reflexivity|].
  rewrite forallb_app, IH. simpl. rewrite andb_true_r. apply andb_comm.
Qed.

(** [trim] leaves nothing exactly of the strings made of white space. *)
Lemma trim_blank_iff (s : JsString) :
  trim s = [] <-> forallb is_white_space s = true.
Proof.
  unfold trim, trimEnd. split.
  - intros H. apply rev_empty in H. apply trimStart_blank in H.
    rewrite forallb_rev in H.
    destruct (trimStart_head s) as [Hs|(c & rest & Hs & Hc)].
    + now apply trimStart_blank.
    + rewrite Hs in H. simpl in H. rewrite Hc in H. discriminate.
  - intros H. apply trimStart_blank in H. rewrite H. reflexivity.
Qed.

Lemma search_guard (q : JsString) :
  is_empty q || is_empty (trim q) = forallb is_white_space q.
Proof.
  destruct (forallb is_white_space q) eqn:Hblank.
  - apply trim_blank_iff in Hblank. rewrite Hblank. apply orb_true_r.
  - assert (trim q <> []) as Htrim.
    { intros H. apply trim_blank_iff in H. congruence. }
    now rewrite (is_empty_false q (trim_nonempty q Htrim)),
      (is_empty_false _ Htrim).
Qed.

(** X11: [search] throws in two situations only. When the query is missing
    or made of white space only (the empty query included), it throws a
    [BadRequestException]; when the query holds another character and the
    embedding call throws, it throws what that call throws. *)
Theorem search_rejects_exactly :
  forall (Embedding Metadata Score : Type)
         (embedQuery : JsString -> Res Embedding)
         (ranked : Embedding -> list (Knowledge.Document Metadata * Score))
         (query : option JsString) (e : Exn),
    Knowledge.search embedQuery ranked query = Throw e <->
    (e = BadRequestException /\
     (query = None \/
      exists q, query = Some q /\ forallb is_white_space q = true)) \/
    (exists q, query = Some q /\ forallb is_white_space q = false /\
               embedQuery q = Throw e).
Proof.
  intros Embedding Metadata Score embedQuery ranked query e.
  unfold Knowledge.search. destruct query as [q|].
  - rewrite search_guard. destruct (forallb is_white_space q) eqn:Hblank.
    + split.
      * intros [= <-]. left. split; [reflexivity|]. right. eauto.
      * intros [[-> _]|(q' & [= <-] & Hq' & _)]; [reflexivity | congruence].
    + destruct (embedQuery q) as [embedding|e'] eqn:Hembed; unfold bind.
      * split.
        -- destruct (length _ =? 0)%nat; discriminate.
        -- intros [(_ & [Hnone|(q' & [= <-] & Hq')])|(q' & [= <-] & _ & Hthrow)];
             congruence.
      * split.
        -- intros [= <-]. right. eauto.
        -- intros [(_ & [Hnone|(q' & [= <-] & Hq')])|(q' & [= <-] & _ & Hthrow)];
             congruence.
  - split; [intros [= <-]; auto|].
    intros [[-> _]|(q' & Hq' & _)]; [reflexivity | discriminate].
Qed.

(** X12: when [search] answers, the embedding call has returned a vector,
    and either the store ranks no document for it, and the answer holds no
    result and the message that nothing was found, or the answer holds
    exactly the best ranked document of the store, with its score, and the
    message that a result was found. *)
Theorem search_answers_best_match :
  forall (Embedding Metadata Score : Type)
         (embedQuery : JsString -> Res Embedding)
         (ranked : Embedding -> list (Knowledge.Document Metadata * Score))
         (query : option JsString)
         (r : Knowledge.SearchResponse Metadata Score),
    Knowledge.search embedQuery ranked query = Ok r ->
    exists q embedding,
      query = Some q /\
      embedQuery q = Ok embedding /\
      ((ranked embedding = [] /\
        Knowledge.results r = [] /\
        Knowledge.message r =
          "Aucun résultat trouvé. Assurez-vous que des documents ont été ingérés.") \/
       (exists doc score rest,
           ranked embedding = (doc, score) :: rest /\
           Knowledge.results r =
             [ {| Knowledge.r_content := Knowledge.pageContent doc;
                  Knowledge.r_metadata := Knowledge.metadata doc;
                  Knowledge.r_score := score |} ] /\
           Knowledge.message r = "résultat trouvé")).
Proof.
  intros Embedding Metadata Score embedQuery ranked query r.
  unfold Knowledge.search, Knowledge.similaritySearchVectorWithScore.
  destruct query as [q|]; [|discriminate].
  destruct (is_empty q || is_empty (trim q)); [discriminate|].
  destruct (embedQuery q) as [embedding|e] eqn:Hembed; [|discriminate].
  unfold bind. intros H. exists q, embedding.
  split; [reflexivity|]. split; [exact Hembed|].
  destruct (ranked embedding) as [|[doc score] rest]; simpl in H.
  - injection H as <-. left. auto.
  - injection H as <-. right. exists doc, score, rest. auto.
Qed.

Lemma search_answers_best_match_witness :
  let ranked := fun _ : unit =>
    [ ({| Knowledge.pageContent := js "Paris is the capital of France";
          Knowledge.metadata := "doc.pdf" |}, 9%nat);
      ({| Knowledge.pageContent := js "Lyon"; Knowledge.metadata := "doc.pdf" |},
       4%nat) ] in
  exists r,
    Knowledge.search (fun _ => Ok tt) ranked (Some (js "capital")) = Ok r /\
    Knowledge.message r = "résultat trouvé".
Proof.
  intros ranked. eexists. split; [reflexivity|].
  destruct (search_answers_best_match unit string nat (fun _ => Ok tt) ranked
              (Some (js "capital")) _ eq_refl)
    as (q & embedding & _ & _ & [(Hnone & _)|(doc & score & rest & _ & _ & Hmsg)]).
  - discriminate.
  - exact Hmsg.
Defined.

(** ** Ingestion *)

Lemma substring_from_start (s : JsString) (stop : nat) :
  Js.substring s 0 stop = firstn stop s.
Proof.
  unfold Js.substring. rewrite Nat.min_0_l, Nat.max_0_l, Nat.sub_0_r.
  reflexivity.
Qed.

Lemma previews_from_nth {Metadata} (docs : list (Knowledge.Document Metadata))
    (index i : nat) (doc : Knowledge.Document Metadata) :
  nth_error docs i = Some doc ->
  nth_error (Ingestion.previews_from index docs) i =
    Some {| Ingestion.page := index + i + 1;
            Ingestion.preview_content :=
              Js.substring (Knowledge.pageContent doc) 0 200 ++ js "...";
            Ingestion.preview_metadata := Knowledge.metadata doc |}.
Proof.
  revert index i. induction docs as [|d docs IH]; intros index i Hnth.
  - destruct i; discriminate.
  - destruct i as [|i]; simpl in *.
    + injection Hnth as ->. now rewrite Nat.add_0_r.
    + rewrite (IH (S index) i Hnth). do 3 f_equal. lia.
Qed.

Lemma previews_from_length {Metadata} (docs : list (Knowledge.Document Metadata))
    (index : nat) :
  length (Ingestion.previews_from index docs) = length docs.
Proof.
  revert index. induction docs as [|d docs IH]; intros index; simpl;
    [reflexivity | now rewrite IH].
Qed.

(** X13: the previews of a report are one per loaded document, in order;
    the preview of the document at index [i] bears page number [i + 1] and
    the first 200 code units of its text followed by three dots, so at most
    203 code units, and exactly 203 for a text of 200 code units or more; a
    text of at most 200 code units is kept whole, the dots being added all
    the same. *)
Theorem previews_numbered_and_bounded :
  forall (Metadata : Type) (docs : list (Knowledge.Document Metadata)),
    length (Ingestion.previews docs) = length docs /\
    forall (i : nat) (doc : Knowledge.Document Metadata),
      nth_error docs i = Some doc ->
      exists p,
        nth_error (Ingestion.previews docs) i = Some p /\
        Ingestion.page p = i + 1 /\
        Ingestion.preview_metadata p = Knowledge.metadata doc /\
        Ingestion.preview_content p =
          firstn 200 (Knowledge.pageContent doc) ++ js "..." /\
        length (Ingestion.preview_content p) <= 203 /\
        (200 <= length (Knowledge.pageContent doc) ->
         length (Ingestion.preview_content p) = 203) /\
        (length (Knowledge.pageContent doc) <= 200 ->
         Ingestion.preview_content p = Knowledge.pageContent doc ++ js "...").
Proof.
  intros Metadata docs. split; [apply previews_from_length|].
  intros i doc Hnth. eexists. split.
  - unfold Ingestion.previews. apply previews_from_nth. exact Hnth.
  - simpl. rewrite substring_from_start. repeat split.
    + rewrite length_app, length_firstn.
      change (length (js "...")) with 3. lia.
    + intros Hlong. rewrite length_app, length_firstn.
      change (length (js "...")) with 3. lia.
    + intros Hshort. now rewrite firstn_all2.
Qed.

Lemma previews_numbered_and_bounded_witness :
  let docs := [ {| Knowledge.pageContent := js "Paris"; Knowledge.metadata := tt |};
                {| Knowledge.pageContent := [0xE9%N; 0x74%N; 0xE9%N];
                   Knowledge.metadata := tt |} ] in
  exists p,
    nth_error (Ingestion.previews docs) 1 = Some p /\
    Ingestion.page p = 2 /\
    Ingestion.preview_content p = [0xE9%N; 0x74%N; 0xE9%N] ++ js "...".
Proof.
  intros docs.
  destruct (previews_numbered_and_bounded unit docs) as [_ H].
  destruct (H 1 {| Knowledge.pageContent := [0xE9%N; 0x74%N; 0xE9%N];
                   Knowledge.metadata := tt |}
              eq_refl) as (p & Hp & Hpage & _ & _ & _ & _ & Hshort).
  exists p. split; [exact Hp|]. split; [exact Hpage|].
  apply Hshort. simpl. lia.
Defined.

(** Case analysis on what the collaborators of an ingestion did. *)
Ltac settle_ingestion :=
  repeat match goal with
         | H : exists _, _ |- _ => destruct H
         | H : _ /\ _ |- _ => destruct H
         | H : _ \/ _ |- _ => destruct H
         | H : Some _ = Some _ |- _ => injection H as H; subst
         | H : Ingestion.Raise _ = Ingestion.Raise _ |- _ =>
             injection H as H; subst
         | H : Ingestion.Done _ = Ingestion.Done _ |- _ =>
             injection H as H; subst
         | H : Ingestion.Ingested _ = Ingestion.Ingested _ |- _ =>
             injection H as H; subst
         end;
  try discriminate; try congruence; eauto 20.

(** X14: [ingestPdfFile] returns the empty result exactly for a missing
    file. It throws exactly when the loader, the splitter or the embedding
    call throws, and then a [BadRequestException] whose message is the fixed
    prefix followed by the message of what that call threw. It returns a
    report exactly when the three calls return, and the report then names
    the file and its size, counts the loaded documents as pages and the
    splits as chunks, and holds the previews of the documents and the
    splits. It writes to the store once, the splits with their vectors, when
    it returns a report, and not at all otherwise. *)
Theorem ingestPdfFile_outcome :
  forall (Embedding Metadata : Type)
         (pdf_load : string -> Ingestion.Try (list (Knowledge.Document Metadata)))
         (splitDocuments : list (Knowledge.Document Metadata) ->
                           Ingestion.Try (list (Knowledge.Document Metadata)))
         (embedDocuments : list JsString -> Ingestion.Try (list Embedding))
         (file : option Ingestion.File),
    let result :=
      Ingestion.ingestPdfFile pdf_load splitDocuments embedDocuments file in
    (fst result = Ingestion.Done Ingestion.Skipped <-> file = None) /\
    (forall e,
        fst result = Ingestion.Raise e <->
        exists f cause,
          file = Some f /\
          e = Ingestion.BadRequest
                ("Erreur lors du traitement du PDF: "
                 ++ Ingestion.error_message cause)%string /\
          (pdf_load (Ingestion.buffer f) = Ingestion.Raise cause \/
           exists docs,
             pdf_load (Ingestion.buffer f) = Ingestion.Done docs /\
             (splitDocuments docs = Ingestion.Raise cause \/
              exists allSplits,
                splitDocuments docs = Ingestion.Done allSplits /\
                embedDocuments (map Knowledge.pageContent allSplits)
                = Ingestion.Raise cause))) /\
    (forall rep,
        fst result = Ingestion.Done (Ingestion.Ingested rep) <->
        exists f docs allSplits vectors,
          file = Some f /\
          pdf_load (Ingestion.buffer f) = Ingestion.Done docs /\
          splitDocuments docs = Ingestion.Done allSplits /\
          embedDocuments (map Knowledge.pageContent allSplits)
          = Ingestion.Done vectors /\
          rep = {| Ingestion.report_message := "PDF ingéré avec succès";
                   Ingestion.originalName := Ingestion.originalname f;
                   Ingestion.report_size := Some (Ingestion.size f);
                   Ingestion.pages := Some (length docs);
                   Ingestion.chunks := length allSplits;
                   Ingestion.documents := Ingestion.previews docs;
                   Ingestion.splits := allSplits |}) /\
    (forall rep,
        fst result = Ingestion.Done (Ingestion.Ingested rep) ->
        exists vectors,
          embedDocuments (map Knowledge.pageContent (Ingestion.splits rep))
          = Ingestion.Done vectors /\
          snd result = [ {| Ingestion.w_vectors := vectors;
                            Ingestion.w_documents := Ingestion.splits rep |} ]) /\
    ((forall rep, fst result <> Ingestion.Done (Ingestion.Ingested rep)) ->
     snd result = []).
Proof.
  intros Embedding Metadata pdf_load splitDocuments embedDocuments file.
  unfold Ingestion.ingestPdfFile, Ingestion.ingest, Ingestion.processing_error.
  destruct file as [f|]; simpl.
  2: { repeat split; intros; settle_ingestion. }
  destruct (pdf_load (Ingestion.buffer f)) as [docs|c1] eqn:Hload; simpl.
  2: { repeat split; intros; settle_ingestion. }
  destruct (splitDocuments docs) as [allSplits|c2] eqn:Hsplit; simpl.
  2: { repeat split; intros; settle_ingestion. }
  destruct (embedDocuments (map Knowledge.pageContent allSplits))
    as [vectors|c3] eqn:Hembed; simpl.
  2: { repeat split; intros; settle_ingestion. }
  repeat split; intros; settle_ingestion.
  exfalso. eapply H. reflexivity.
Qed.

Lemma ingestPdfFile_outcome_witness :
  fst (Ingestion.ingestPdfFile Examples.load_text Examples.keep_whole
         Examples.embed_lengths (Some (Examples.pdf_file "b.pdf" "broken")))
  = Ingestion.Raise
      (Ingestion.BadRequest
         "Erreur lors du traitement du PDF: Invalid PDF structure") /\
  snd (Ingestion.ingestPdfFile Examples.load_text Examples.keep_whole
         Examples.embed_lengths (Some (Examples.pdf_file "b.pdf" "broken")))
  = [].
Proof.
  destruct (ingestPdfFile_outcome nat string Examples.load_text
              Examples.keep_whole Examples.embed_lengths
              (Some (Examples.pdf_file "b.pdf" "broken")))
    as (_ & Hthrow & _ & _ & Hnone).
  split.
  - apply Hthrow.
    exists (Examples.pdf_file "b.pdf" "broken"),
           (Ingestion.OtherError "Invalid PDF structure").
    split; [reflexivity|]. split; [reflexivity|]. left. reflexivity.
  - apply Hnone. intros rep. discriminate.
Defined.

(** X15: [ingestUrl] returns the empty result exactly for a missing or
    empty url. It throws exactly when the loader, the splitter or the
    embedding call throws, and then a [BadRequestException] whose message is
    the prefix used for a PDF file followed by the message of what that call
    threw. It returns a report exactly when the three calls return, and the
    report then names the url, has neither size nor page count, counts the
    splits as chunks, and holds the previews of the documents and the
    splits. It writes to the store once, the splits with their vectors, when
    it returns a report, and not at all otherwise. *)
Theorem ingestUrl_outcome :
  forall (Embedding Metadata : Type)
         (web_load : string -> Ingestion.Try (list (Knowledge.Document Metadata)))
         (splitDocuments : list (Knowledge.Document Metadata) ->
                           Ingestion.Try (list (Knowledge.Document Metadata)))
         (embedDocuments : list JsString -> Ingestion.Try (list Embedding))
         (url : option string),
    let result :=
      Ingestion.ingestUrl web_load splitDocuments embedDocuments url in
    (fst result = Ingestion.Done Ingestion.Skipped <->
     url = None \/ url = Some "") /\
    (forall e,
        fst result = Ingestion.Raise e <->
        exists u cause,
          url = Some u /\ u <> "" /\
          e = Ingestion.BadRequest
                ("Erreur lors du traitement du PDF: "
                 ++ Ingestion.error_message cause)%string /\
          (web_load u = Ingestion.Raise cause \/
           exists docs,
             web_load u = Ingestion.Done docs /\
             (splitDocuments docs = Ingestion.Raise cause \/
              exists allSplits,
                splitDocuments docs = Ingestion.Done allSplits /\
                embedDocuments (map Knowledge.pageContent allSplits)
                = Ingestion.Raise cause))) /\
    (forall rep,
        fst result = Ingestion.Done (Ingestion.Ingested rep) <->
        exists u docs allSplits vectors,
          url = Some u /\ u <> "" /\
          web_load u = Ingestion.Done docs /\
          splitDocuments docs = Ingestion.Done allSplits /\
          embedDocuments (map Knowledge.pageContent allSplits)
          = Ingestion.Done vectors /\
          rep = {| Ingestion.report_message := "URL ingérée avec succès";
                   Ingestion.originalName := u;
                   Ingestion.report_size := None;
                   Ingestion.pages := None;
                   Ingestion.chunks := length allSplits;
                   Ingestion.documents := Ingestion.previews docs;
                   Ingestion.splits := allSplits |}) /\
    (forall rep,
        fst result = Ingestion.Done (Ingestion.Ingested rep) ->
        exists vectors,
          embedDocuments (map Knowledge.pageContent (Ingestion.splits rep))
          = Ingestion.Done vectors /\
          snd result = [ {| Ingestion.w_vectors := vectors;
                            Ingestion.w_documents := Ingestion.splits rep |} ]) /\
    ((forall rep, fst result <> Ingestion.Done (Ingestion.Ingested rep)) ->
     snd result = []).
Proof.
  intros Embedding Metadata web_load splitDocuments embedDocuments url.
  unfold Ingestion.ingestUrl, Ingestion.ingest, Ingestion.processing_error.
  destruct url as [u|]; simpl.
  2: { repeat split; intros; settle_ingestion. }
  destruct (String.eqb_spec u "") as [->|Hu]; simpl.
  1: { repeat split; intros; settle_ingestion. }
  destruct (web_load u) as [docs|c1] eqn:Hload; simpl.
  2: { repeat split; intros; settle_ingestion. }
  destruct (splitDocuments docs) as [allSplits|c2] eqn:Hsplit; simpl.
  2: { repeat split; intros; settle_ingestion. }
  destruct (embedDocuments (map Knowledge.pageContent allSplits))
    as [vectors|c3] eqn:Hembed; simpl.
  2: { repeat split; intros; settle_ingestion. }
  repeat split; intros; settle_ingestion.
  exfalso. eapply H. reflexivity.
Qed.

Lemma ingestUrl_outcome_witness :
  fst (Ingestion.ingestUrl Examples.load_text Examples.keep_whole
         Examples.embed_lengths (Some ""))
  = Ingestion.Done Ingestion.Skipped /\
  fst (Ingestion.ingestUrl Examples.load_text Examples.keep_whole
         Examples.embed_lengths (Some "broken"))
  = Ingestion.Raise
      (Ingestion.BadRequest
         "Erreur lors du traitement du PDF: Invalid PDF structure").
Proof.
  split.
  - destruct (ingestUrl_outcome nat string Examples.load_text
                Examples.keep_whole Examples.embed_lengths (Some ""))
      as (Hskip & _).
    apply Hskip. now right.
  - destruct (ingestUrl_outcome nat string Examples.load_text
                Examples.keep_whole Examples.embed_lengths (Some "broken"))
      as (_ & Hthrow & _).
    apply Hthrow.
    exists "broken", (Ingestion.OtherError "Invalid PDF structure").
    split; [reflexivity|]. split; [discriminate|].
    split; [reflexivity|]. left. reflexivity.
Defined.

(** * Properties of the upload handlers *)

Lemma thrown_by_none {A} (calls : list (Ingestion.Try A)) :
  KnowledgeController.thrown_by calls = [] ->
  map Ingestion.Done (KnowledgeController.returned_by calls) = calls.
Proof.
  induction calls as [|[a|e] calls IH]; simpl; intros H.
  - reflexivity.
  - now rewrite IH.
  - discriminate.
Qed.

Lemma thrown_by_In {A} (calls : list (Ingestion.Try A)) (e : Ingestion.Thrown) :
  In e (KnowledgeController.thrown_by calls) <-> In (Ingestion.Raise e) calls.
Proof.
  induction calls as [|[a|e'] calls IH]; simpl.
  - tauto.
  - rewrite IH. split; [auto | intros [H|H]; [discriminate | assumption]].
  - rewrite IH. split; intros [H|H]; auto; left; congruence.
Qed.

Lemma promise_all_spec {Embedding Metadata A}
    (calls : list (Ingestion.Try A * list (Ingestion.Write Embedding Metadata))) :
  snd (KnowledgeController.promise_all calls) = flat_map snd calls /\
  match fst (KnowledgeController.promise_all calls) with
  | KnowledgeController.Responded values =>
      map Ingestion.Done values = map fst calls
  | KnowledgeController.Rejected reasons =>
      reasons <> [] /\
      reasons = KnowledgeController.thrown_by (map fst calls)
  end.
Proof.
  unfold KnowledgeController.promise_all.
  destruct (KnowledgeController.thrown_by (map fst calls)) as [|e reasons] eqn:Hth;
    simpl.
  - split; [reflexivity | now apply thrown_by_none].
  - split; [reflexivity|]. split; [discriminate | reflexivity].
Qed.

Section UploadFacts.

Import Ingestion KnowledgeController.

Variables Embedding Metadata : Type.
Variable pdf_load : string -> Try (list (Knowledge.Document Metadata)).
Variable web_load : string -> Try (list (Knowledge.Document Metadata)).
Variable splitDocuments :
  list (Knowledge.Document Metadata) -> Try (list (Knowledge.Document Metadata)).
Variable embedDocuments : list JsString -> Try (list Embedding).

(** The ingestion of one file and of one url, as the handlers call them. *)
Let pdf (file : File) := ingestPdfFile pdf_load splitDocuments embedDocuments (Some file).
Let web (u : string) := ingestUrl web_load splitDocuments embedDocuments (Some u).

Lemma uploadPdfs_cases (f : File) (fs : list File) :
  uploadPdfs pdf_load splitDocuments embedDocuments (Some (f :: fs)) =
    match promise_all (map pdf (f :: fs)) with
    | (Rejected reasons, writes) => (Rejected reasons, writes)
    | (Responded results, writes) =>
        (Responded
           {| pdf_message := (decimal (length (f :: fs))
                              ++ " PDF(s) traité(s) avec succès")%string;
              pdf_totalFiles := length (f :: fs);
              pdf_results :=
                map (fun fr : File * IngestResult Metadata =>
                       {| fileName := originalname (fst fr);
                          entry_result := snd fr |})
                    (combine (f :: fs) results) |},
         writes)
    end.
Proof. reflexivity. Qed.

Lemma combine_entries (fs : list File) (results : list (IngestResult Metadata)) :
  length results = length fs ->
  map fileName
      (map (fun fr : File * IngestResult Metadata =>
              {| fileName := originalname (fst fr); entry_result := snd fr |})
           (combine fs results)) = map originalname fs /\
  map entry_result
      (map (fun fr : File * IngestResult Metadata =>
              {| fileName := originalname (fst fr); entry_result := snd fr |})
           (combine fs results)) = results.
Proof.
  revert results. induction fs as [|f fs IH]; intros [|r results] Hlen;
    simpl in *; try discriminate; [auto|].
  destruct (IH results ltac:(lia)) as [-> ->]. auto.
Qed.

Lemma pdf_never_skipped (f : File) : fst (pdf f) <> Done Skipped.
Proof.
  unfold pdf, ingestPdfFile.
  destruct (pdf_load (buffer f)) as [docs|e]; simpl; [|discriminate].
  destruct (ingest splitDocuments embedDocuments docs) as [[allSplits|e] ws];
    simpl; discriminate.
Qed.

Lemma pdf_raises_bad_request (f : File) (e : Thrown) :
  fst (pdf f) = Raise e -> exists m, e = BadRequest m.
Proof.
  unfold pdf, ingestPdfFile, processing_error.
  destruct (pdf_load (buffer f)) as [docs|e']; simpl; [|intros [= <-]; eauto].
  destruct (ingest splitDocuments embedDocuments docs) as [[allSplits|e'] ws];
    simpl; [discriminate | intros [= <-]; eauto].
Qed.

Lemma web_raises_bad_request (u : string) (e : Thrown) :
  fst (web u) = Raise e -> exists m, e = BadRequest m.
Proof.
  unfold web, ingestUrl, processing_error.
  destruct (String.eqb u ""); simpl; [discriminate|].
  destruct (web_load u) as [docs|e']; simpl; [|intros [= <-]; eauto].
  destruct (ingest splitDocuments embedDocuments docs) as [[allSplits|e'] ws];
    simpl; [discriminate | intros [= <-]; eauto].
Qed.

Lemma thrown_are_bad_requests {X} (call : X -> Try (IngestResult Metadata))
    (xs : list X) :
  (forall x e, call x = Raise e -> exists m, e = BadRequest m) ->
  forall e, In e (thrown_by (map call xs)) -> exists m, e = BadRequest m.
Proof.
  intros Hcall e Hin. apply thrown_by_In in Hin.
  apply in_map_iff in Hin. destruct Hin as (x & Hx & _). eauto.
Qed.

Lemma flat_map_snd_map {X} (call : X -> Try (IngestResult Metadata)
                                      * list (Write Embedding Metadata))
    (xs : list X) :
  flat_map snd (map call xs) = flat_map (fun x => snd (call x)) xs.
Proof.
  induction xs as [|x xs IH]; simpl; [reflexivity | now rewrite IH].
Qed.

(** X16: when [uploadPdfs] responds, some file was given and every
    ingestion returned: the response counts the files, holds one entry per
    file in the order of the files, each with the name of its file and a
    report (never the empty result), and the store has received the writes
    of all the files. *)
Theorem uploadPdfs_response :
  forall (files : option (list File)) (resp : PdfResponse Metadata)
         (writes : list (Write Embedding Metadata)),
    uploadPdfs pdf_load splitDocuments embedDocuments files
    = (Responded resp, writes) ->
    exists fs,
      files = Some fs /\ fs <> [] /\
      pdf_totalFiles resp = length fs /\
      pdf_message resp
      = (decimal (length fs) ++ " PDF(s) traité(s) avec succès")%string /\
      map fileName (pdf_results resp) = map originalname fs /\
      map (fun entry => Done (entry_result entry)) (pdf_results resp)
      = map (fun f => fst (pdf f)) fs /\
      (forall entry, In entry (pdf_results resp) ->
                     exists rep, entry_result entry = Ingested rep) /\
      writes = flat_map (fun f => snd (pdf f)) fs.
Proof.
  intros files resp writes.
  destruct files as [[|f fs]|]; try discriminate.
  rewrite uploadPdfs_cases.
  destruct (promise_all_spec (map pdf (f :: fs))) as [Hwrites Hvalues].
  destruct (promise_all (map pdf (f :: fs))) as [[results|reasons] ws];
    [|discriminate].
  simpl fst in Hvalues. simpl snd in Hwrites. rewrite map_map in Hvalues.
  assert (length results = length (f :: fs)) as Hlen.
  { rewrite <- (length_map Done results), Hvalues. apply length_map. }
  destruct (combine_entries (f :: fs) results Hlen) as [Hnames Hresults].
  remember (map (fun fr : File * IngestResult Metadata =>
                   {| fileName := originalname (fst fr);
                      entry_result := snd fr |})
                (combine (f :: fs) results)) as entries eqn:Hentries.
  intros [= <- <-]. exists (f :: fs).
  split; [reflexivity|]. split; [discriminate|].
  split; [reflexivity|]. split; [reflexivity|]. split; [exact Hnames|].
  change (pdf_results _) with entries.
  split; [|split].
  - rewrite <- Hvalues, <- (map_map entry_result Done), Hresults. reflexivity.
  - intros entry Hin.
    apply (in_map entry_result) in Hin. rewrite Hresults in Hin.
    apply (in_map Done) in Hin. rewrite Hvalues in Hin.
    apply in_map_iff in Hin. destruct Hin as (f0 & Hf0 & _).
    destruct (entry_result entry) as [|rep]; [|eauto].
    now destruct (pdf_never_skipped f0).
  - rewrite Hwrites. apply flat_map_snd_map.
Qed.

(** X17: [uploadPdfs] is rejected with a [BadRequestException] only:
    without any file, for that reason and before anything is ingested; else
    because some ingestion threw, and then the store has nevertheless
    received the writes of the files whose ingestion returned. *)
Theorem uploadPdfs_rejection :
  forall (files : option (list File)) (reasons : list Thrown)
         (writes : list (Write Embedding Metadata)),
    uploadPdfs pdf_load splitDocuments embedDocuments files
    = (Rejected reasons, writes) ->
    reasons <> [] /\
    (forall e, In e reasons -> exists m, e = BadRequest m) /\
    (((files = None \/ files = Some []) /\
      reasons = [BadRequest "Aucun fichier fourni"] /\ writes = []) \/
     (exists fs,
         files = Some fs /\ fs <> [] /\
         reasons = thrown_by (map (fun f => fst (pdf f)) fs) /\
         writes = flat_map (fun f => snd (pdf f)) fs)).
Proof.
  intros files reasons writes.
  destruct files as [[|f fs]|].
  - intros [= <- <-]. split; [discriminate|].
    split; [intros e [<-|[]]; eauto | left; auto].
  - rewrite uploadPdfs_cases.
    destruct (promise_all_spec (map pdf (f :: fs))) as [Hwrites Hvalues].
    destruct (promise_all (map pdf (f :: fs))) as [[results|rs] ws];
      [discriminate|].
    simpl fst in Hvalues. simpl snd in Hwrites. intros [= <- <-].
    destruct Hvalues as [Hne Hrs]. rewrite map_map in Hrs.
    split; [exact Hne|]. split.
    + rewrite Hrs. apply thrown_are_bad_requests.
      intros x e. apply pdf_raises_bad_request.
    + right. exists (f :: fs). split; [reflexivity|]. split; [discriminate|].
      split; [exact Hrs|]. rewrite Hwrites. apply flat_map_snd_map.
  - intros [= <- <-]. split; [discriminate|].
    split; [intros e [<-|[]]; eauto | left; auto].
Qed.

End UploadFacts.

Lemma uploadPdfs_response_witness :
  let files := [Examples.pdf_file "a.pdf" "Paris"; Examples.pdf_file "b.pdf" "Lyon"] in
  exists resp writes,
    KnowledgeController.uploadPdfs Examples.load_text Examples.keep_whole
      Examples.embed_lengths (Some files)
    = (KnowledgeController.Responded resp, writes) /\
    KnowledgeController.pdf_totalFiles resp = 2 /\
    map KnowledgeController.fileName (KnowledgeController.pdf_results resp)
    = ["a.pdf"; "b.pdf"].
Proof.
  intros files.
  destruct (KnowledgeController.uploadPdfs Examples.load_text Examples.keep_whole
              Examples.embed_lengths (Some files))
    as [[resp|reasons] writes] eqn:Hup; [|vm_compute in Hup; discriminate].
  exists resp, writes. split; [reflexivity|].
  destruct (uploadPdfs_response nat string Examples.load_text Examples.keep_whole
              Examples.embed_lengths (Some files) resp writes Hup)
    as (fs & [= <-] & _ & Htotal & _ & Hnames & _).
  split; [exact Htotal | exact Hnames].
Defined.

Lemma uploadPdfs_rejection_witness :
  let files := [Examples.pdf_file "a.pdf" "Paris"; Examples.pdf_file "b.pdf" "broken"] in
  exists reasons writes,
    KnowledgeController.uploadPdfs Examples.load_text Examples.keep_whole
      Examples.embed_lengths (Some files)
    = (KnowledgeController.Rejected reasons, writes) /\
    (forall e, In e reasons -> exists m, e = Ingestion.BadRequest m) /\
    length writes = 1.
Proof.
  intros files.
  destruct (KnowledgeController.uploadPdfs Examples.load_text Examples.keep_whole
              Examples.embed_lengths (Some files))
    as [[resp|reasons] writes] eqn:Hup; [vm_compute in Hup; discriminate|].
  exists reasons, writes. split; [reflexivity|].
  destruct (uploadPdfs_rejection nat string Examples.load_text Examples.keep_whole
              Examples.embed_lengths (Some files) reasons writes Hup)
    as (_ & Hbad & [(Hnone & _ & _)|(fs & [= <-] & _ & _ & ->)]).
  - destruct Hnone; discriminate.
  - split; [exact Hbad | reflexivity].
Defined.

Section UploadWithUrls.

Import Ingestion KnowledgeController.

Variables Embedding Metadata : Type.
Variable pdf_load : string -> Try (list (Knowledge.Document Metadata)).
Variable web_load : string -> Try (list (Knowledge.Document Metadata)).
Variable splitDocuments :
  list (Knowledge.Document Metadata) -> Try (list (Knowledge.Document Metadata)).
Variable embedDocuments : list JsString -> Try (list Embedding).

Let pdf (file : File) := ingestPdfFile pdf_load splitDocuments embedDocuments (Some file).
Let web (u : string) := ingestUrl web_load splitDocuments embedDocuments (Some u).

(** The ingestion of the files, first stage of [upload]. *)
Lemma upload_files_stage (files : option (list File)) :
  match files with
  | Some (f :: fs) => promise_all (map pdf (f :: fs))
  | _ => (Responded [], [])
  end = promise_all (map pdf (files_of files)).
Proof. destruct files as [[|f fs]|]; reflexivity. Qed.

Lemma upload_urls_stage (b : UploadBody) :
  match urls b with
  | Some us => promise_all (map web us)
  | None => (Responded [], [])
  end = promise_all (map web (urls_of b)).
Proof. unfold urls_of. destruct (urls b); reflexivity. Qed.

(** X18: when [upload] responds, a body was given and every ingestion
    returned: the results are those of the files, in order, followed by those
    of the urls, in order; their number, which the message announces, is the
    number of files plus the number of urls, an empty url being counted with
    an empty result; and the store has received the writes of all of them. *)
Theorem upload_response :
  forall (files : option (list File)) (body : option UploadBody)
         (resp : UploadResponse Metadata)
         (writes : list (Write Embedding Metadata)),
    upload pdf_load web_load splitDocuments embedDocuments files body
    = (Responded resp, writes) ->
    exists b,
      body = Some b /\
      up_totalFiles resp = length (files_of files) /\
      up_totalUrls resp = length (urls_of b) /\
      length (up_results resp) = up_totalFiles resp + up_totalUrls resp /\
      up_message resp
      = (decimal (up_totalFiles resp + up_totalUrls resp)
         ++ " Document(s) traité(s) avec succès")%string /\
      map Done (up_results resp)
      = map (fun f => fst (pdf f)) (files_of files)
        ++ map (fun u => fst (web u)) (urls_of b) /\
      (forall i, nth_error (urls_of b) i = Some "" ->
                 nth_error (up_results resp) (length (files_of files) + i)
                 = Some Skipped) /\
      writes = flat_map (fun f => snd (pdf f)) (files_of files)
               ++ flat_map (fun u => snd (web u)) (urls_of b).
Proof.
  intros files body resp writes. unfold upload.
  fold pdf web. rewrite (upload_files_stage files).
  destruct (promise_all_spec (map pdf (files_of files))) as [Hw1 Hv1].
  destruct (promise_all (map pdf (files_of files))) as [[pdfResults|rs] ws1];
    [|discriminate].
  simpl fst in Hv1. simpl snd in Hw1. rewrite map_map in Hv1.
  destruct body as [b|]; [|discriminate].
  rewrite (upload_urls_stage b).
  destruct (promise_all_spec (map web (urls_of b))) as [Hw2 Hv2].
  destruct (promise_all (map web (urls_of b))) as [[urlResults|rs] ws2];
    [|discriminate].
  simpl fst in Hv2. simpl snd in Hw2. rewrite map_map in Hv2.
  assert (length pdfResults = length (files_of files)) as Hlen1.
  { rewrite <- (length_map Done pdfResults), Hv1. apply length_map. }
  assert (length urlResults = length (urls_of b)) as Hlen2.
  { rewrite <- (length_map Done urlResults), Hv2. apply length_map. }
  intros [= <- <-]. exists b. simpl.
  split; [reflexivity|].
  split; [unfold files_of; destruct files; reflexivity|].
  split; [unfold urls_of; destruct (urls b); reflexivity|].
  assert (match files with Some fs => length fs | None => 0 end
          = length (files_of files)) as Hfiles
    by (unfold files_of; destruct files; reflexivity).
  assert (match urls b with Some us => length us | None => 0 end
          = length (urls_of b)) as Hurls
    by (unfold urls_of; destruct (urls b); reflexivity).
  rewrite Hfiles, Hurls, length_app, Hlen1, Hlen2.
  split; [reflexivity|]. split; [reflexivity|].
  split; [now rewrite map_app, Hv1, Hv2|].
  split.
  - intros i Hi. rewrite <- Hlen1, nth_error_app2 by lia.
    replace (length pdfResults + i - length pdfResults) with i by lia.
    assert (nth_error (map Done urlResults) i = Some (Done Skipped)) as Hnth.
    { rewrite Hv2. rewrite nth_error_map, Hi. reflexivity. }
    rewrite nth_error_map in Hnth.
    destruct (nth_error urlResults i) as [r|]; [|discriminate].
    simpl in Hnth. congruence.
  - rewrite Hw1, Hw2, !flat_map_snd_map. reflexivity.
Qed.

(** X19: without a body [upload] never responds: once the files are
    ingested it reads [urls] of the undefined body and throws, although the
    store has by then received the writes of the files. *)
Theorem upload_without_body :
  forall files : option (list File),
    exists reasons,
      upload pdf_load web_load splitDocuments embedDocuments files None
      = (Rejected reasons,
         flat_map (fun f => snd (pdf f)) (files_of files)) /\
      (thrown_by (map (fun f => fst (pdf f)) (files_of files)) = [] ->
       reasons = [ReadOfUndefined]).
Proof.
  intros files. unfold upload. fold pdf. rewrite (upload_files_stage files).
  destruct (promise_all_spec (map pdf (files_of files))) as [Hw1 Hv1].
  destruct (promise_all (map pdf (files_of files))) as [[pdfResults|rs] ws1];
    simpl fst in Hv1; simpl snd in Hw1; rewrite Hw1, flat_map_snd_map.
  - eauto.
  - exists rs. split; [reflexivity|].
    destruct Hv1 as [Hne Hrs]. rewrite map_map in Hrs.
    intros Hnone. congruence.
Qed.

End UploadWithUrls.

Lemma upload_response_witness :
  let files := Some [Examples.pdf_file "a.pdf" "Paris"] in
  let body := Some {| KnowledgeController.urls := Some [""; "https://example.org"] |} in
  exists resp writes,
    KnowledgeController.upload Examples.load_text Examples.load_text
      Examples.keep_whole Examples.embed_lengths files body
    = (KnowledgeController.Responded resp, writes) /\
    length (KnowledgeController.up_results resp) = 3 /\
    nth_error (KnowledgeController.up_results resp) 1 = Some Ingestion.Skipped.
Proof.
  intros files body.
  destruct (KnowledgeController.upload Examples.load_text Examples.load_text
              Examples.keep_whole Examples.embed_lengths files body)
    as [[resp|reasons] writes] eqn:Hup; [|vm_compute in Hup; discriminate].
  exists resp, writes. split; [reflexivity|].
  destruct (upload_response nat string Examples.load_text Examples.load_text
              Examples.keep_whole Examples.embed_lengths files body resp writes
              Hup)
    as (b & [= <-] & Hfiles & Hurls & Hlen & _ & _ & Hempty & _).
  split.
  - rewrite Hlen, Hfiles, Hurls. reflexivity.
  - exact (Hempty 0 eq_refl).
Defined.

Lemma upload_without_body_witness :
  let files := Some [Examples.pdf_file "a.pdf" "Paris"] in
  exists writes,
    KnowledgeController.upload Examples.load_text Examples.load_text
      Examples.keep_whole Examples.embed_lengths files None
    = (KnowledgeController.Rejected [Ingestion.ReadOfUndefined], writes) /\
    length writes = 1.
Proof.
  intros files.
  destruct (upload_without_body nat string Examples.load_text Examples.load_text
              Examples.keep_whole Examples.embed_lengths files)
    as (reasons & Hup & Hreasons).
  rewrite (Hreasons eq_refl) in Hup.
  eexists. split; [exact Hup | reflexivity].
Defined.
